(** * Plottable.Scale.ModifiedLog

    A shallow embedding of [src/scales/modifiedLogScale.ts], twice.

    Modules [JS], [D3], [Util] and [ModifiedLog] read JavaScript numbers
    as real numbers: the whole class in exact arithmetic, without
    rounding and without the sign of zero.  Where the code can leave the
    finite reals the model says so explicitly:
    - the tick count computed by [howManyTicks] is a [number], a real or
      one of [NaN], [+Infinity], [-Infinity], because the source divides by
      a difference that may be zero;
    - [logTicks] and [ticks] return an [outcome], which is a value, a
      thrown [Error], or [NonFinite] when the evaluation would go on with a
      non-finite operand (logarithm of a non-positive number, division by
      zero, a zero step of [d3.range]).

    Module [Double] reads the transform and the scale over binary64
    numbers, to state what rounding does to them. *)

From Stdlib Require Import String.
From Stdlib Require Import Reals Lra Lia List ZArith Bool.
From Stdlib Require Import Permutation Sorted.
From Stdlib Require Import Floats.
Import ListNotations.

Local Open Scope R_scope.

(** ** Results of an evaluation *)

Inductive outcome (A : Type) : Type :=
| Ok (a : A)
| Throw (msg : string)
| NonFinite.

Arguments Ok {A} a.
Arguments Throw {A} msg.
Arguments NonFinite {A}.

Definition bind {A B : Type} (m : outcome A) (k : A -> outcome B) : outcome B :=
  match m with
  | Ok a => k a
  | Throw msg => Throw msg
  | NonFinite => NonFinite
  end.

Notation "x <- m ;; k" := (bind m (fun x => k))
  (at level 61, m at next level, right associativity).

(** ** JavaScript numbers and the [Math] functions the scale uses *)

Module JS.

(** The value of an arithmetic expression whose operands are finite. *)
Inductive number : Type :=
| Fin (r : R)
| NaN
| Infinity (positive : bool).

Definition leb (a b : R) : bool := if Rle_dec a b then true else false.

(** [a / b] on two finite numbers, IEEE 754: a zero divisor gives an
    infinity with the sign of [a], and [0 / 0] is [NaN].  The divisor of
    the source is a difference [y - x], which is [+0] when it is zero. *)
Definition div (a b : R) : number :=
  if Req_dec_T b 0 then
    if Rlt_dec 0 a then Infinity true
    else if Rlt_dec a 0 then Infinity false
    else NaN
  else Fin (a / b).

(** [p * c] for a finite [c]. *)
Definition mul (p : number) (c : R) : number :=
  match p with
  | Fin r => Fin (r * c)
  | NaN => NaN
  | Infinity sgn =>
      if Rlt_dec 0 c then Infinity sgn
      else if Rlt_dec c 0 then Infinity (negb sgn)
      else NaN
  end.

Definition Math_floor (x : R) : R := IZR (Zfloor x).
Definition Math_ceil (x : R) : R := IZR (Zceil x).

(** [Math.ceil] leaves [NaN] and the infinities as they are. *)
Definition ceil (p : number) : number :=
  match p with
  | Fin r => Fin (Math_ceil r)
  | _ => p
  end.

(** [Math.log] is [NaN] below zero and [-Infinity] at zero. *)
Definition Math_log (x : R) : outcome R :=
  if Rlt_dec 0 x then Ok (ln x) else NonFinite.

(** [Math.pow] at a positive base. *)
Definition Math_pow (b x : R) : R := Rpower b x.

(** Division whose quotient is used further on as a finite real. *)
Definition quot (a b : R) : outcome R :=
  if Req_dec_T b 0 then NonFinite else Ok (a / b).

(** [Array.prototype.sort((a, b) => a - b)]: the ascending arrangement,
    here by insertion. *)
Fixpoint insert (x : R) (l : list R) : list R :=
  match l with
  | [] => [x]
  | y :: l' => if Rle_dec x y then x :: l else y :: insert x l'
  end.

Fixpoint sort (l : list R) : list R :=
  match l with
  | [] => []
  | x :: l' => insert x (sort l')
  end.

End JS.

(** ** The parts of d3 (version 3) the scale calls *)

Module D3.

(** [d3.min] and [d3.max] of a two-element array. *)
Definition min (d : R * R) : R := Rmin (fst d) (snd d).
Definition max (d : R * R) : R := Rmax (fst d) (snd d).

(** The loop of [d3.range] for a negative step:
    [while ((j = start + step * ++i) > stop) range.push(j)]. *)
Fixpoint range_down (fuel : nat) (start stop step : R) (i : nat) : list R :=
  match fuel with
  | O => []
  | S fuel' =>
      let j := start + step * INR i in
      if Rlt_dec stop j then j :: range_down fuel' start stop step (S i) else []
  end.

(** The same loop for a positive step, with [j < stop]. *)
Fixpoint range_up (fuel : nat) (start stop step : R) (i : nat) : list R :=
  match fuel with
  | O => []
  | S fuel' =>
      let j := start + step * INR i in
      if Rlt_dec j stop then j :: range_up fuel' start stop step (S i) else []
  end.

(** The number of turns the loop takes: the least [n] with
    [start + step * n] no longer on the near side of [stop]. *)
Definition range_length (start stop step : R) : nat :=
  Z.to_nat (Zceil ((stop - start) / step)).

(** [d3.range(start, stop, step)].  With a zero step d3 throws
    ["infinite range"], returns the empty array or does not terminate,
    according to the signs of the zero and of [stop - start]: the model
    leaves that case as [NonFinite]. *)
Definition range (start stop step : R) : outcome (list R) :=
  if Req_dec_T step 0 then NonFinite
  else if Rlt_dec step 0
       then Ok (range_down (range_length start stop step) start stop step 0)
       else Ok (range_up (range_length start stop step) start stop step 0).

(** [d3.scale.linear()]: a domain and a range of two numbers each. *)
Record linear : Type := mkLinear { domain : R * R; range_ : R * R }.

Definition scale_linear : linear := {| domain := (0, 1); range_ := (0, 1) |}.

(** [d3_uninterpolateNumber]: [b = (b -= a) || 1 / b; (x - a) / b].  For
    [b = a] the divisor is [Infinity] and the quotient is zero. *)
Definition uninterpolateNumber (a b x : R) : R :=
  if Req_dec_T (b - a) 0 then 0 else (x - a) / (b - a).

(** [d3_interpolateNumber]: [a * (1 - t) + b * t]. *)
Definition interpolateNumber (a b t : R) : R := a * (1 - t) + b * t.

(** [d3_scale_bilinear]. *)
Definition bilinear (dom rng : R * R) (x : R) : R :=
  interpolateNumber (fst rng) (snd rng) (uninterpolateNumber (fst dom) (snd dom) x).

(** Calling the scale, and [scale.invert]. *)
Definition apply (l : linear) (x : R) : R := bilinear (domain l) (range_ l) x.
Definition invert (l : linear) (y : R) : R := bilinear (range_ l) (domain l) y.

(** [scale.domain(d)] *)
Definition set_domain (l : linear) (d : R * R) : linear :=
  {| domain := d; range_ := range_ l |}.

End D3.

(** ** Plottable's own helpers *)

Module Util.

Fixpoint mem (x : R) (l : list R) : bool :=
  match l with
  | [] => false
  | y :: l' => if Req_dec_T x y then true else mem x l'
  end.

(** Modelled from the spec: the pass of [uniqNumbers] over the array,
    with the numbers seen so far. *)
Fixpoint uniq_from (seen : list R) (a : list R) : list R :=
  match a with
  | [] => []
  | n :: a' => if mem n seen then uniq_from seen a' else n :: uniq_from (n :: seen) a'
  end.

(** Modelled from the spec: [Util.Methods.uniqNumbers] is not among the
    sources; the multiples are "de-duplicated while preserving order",
    every number staying where it first occurs. *)
Definition uniqNumbers (a : list R) : list R := uniq_from [] a.

(** Modelled from the spec: [Util.Methods.flatten] is not among the
    sources; "flatten all clusters" joins the arrays in their order. *)
Definition flatten (a : list (list R)) : list R := concat a.

End Util.

(** ** The scale *)

Module ModifiedLog.

(** The fields of [Scale.ModifiedLog], with those it inherits and uses:
    the owned d3 scale, the last requested tick count, and the number of
    times the broadcaster has broadcast. *)
Record state : Type := mkState {
  base : R;
  pivot : R;
  untransformedDomain : R * R;
  _lastRequestedTickCount : R;
  _d3Scale : D3.linear;
  broadcasts : nat
}.

Section Methods.

(** What [this._defaultExtent()] returns: inherited, not among the
    sources, and of no consequence below. *)
Variable _defaultExtent : R * R.

(** [d3.scale.linear().domain(d).ticks(m)], the ticking primitive of
    d3's linear scale, given the scale and the count [m]. *)
Variable linear_ticks : D3.linear -> JS.number -> list R.

Definition constructor (arg : option R) : outcome state :=
  let base := match arg with Some b => b | None => 10 end in
  let this := {| base := base;
                 pivot := base;
                 untransformedDomain := _defaultExtent;
                 _lastRequestedTickCount := 10;
                 _d3Scale := D3.scale_linear;
                 broadcasts := O |} in
  if Rle_dec base 1
  then Throw "ModifiedLogScale: The base must be > 1"
  else Ok this.

(** [Math.log] is applied here to a number that is at least 1 once the
    constructor has checked the base (lemma [blend_ge_1]), so that the
    logarithm of the reals is the logarithm of the code. *)
Definition adjustedLog (this : state) (x : R) : R :=
  let negationFactor := if Rlt_dec x 0 then -1 else 1 in
  let x := x * negationFactor in
  let x := if Rlt_dec x (pivot this)
           then x + (pivot this - x) / pivot this
           else x in
  let x := ln x / ln (base this) in
  x * negationFactor.

Definition invertedAdjustedLog (this : state) (x : R) : R :=
  let negationFactor := if Rlt_dec x 0 then -1 else 1 in
  let x := x * negationFactor in
  let x := JS.Math_pow (base this) x in
  let x := if Rlt_dec x (pivot this)
           then (pivot this * (x - 1)) / (pivot this - 1)
           else x in
  x * negationFactor.

Definition scale (this : state) (x : R) : R :=
  D3.apply (_d3Scale this) (adjustedLog this x).

Definition invert (this : state) (x : R) : R :=
  invertedAdjustedLog this (D3.invert (_d3Scale this) x).

Definition _getDomain (this : state) : R * R := untransformedDomain this.

(** Modelled from the spec: [this.broadcaster.broadcast()] is not
    among the sources; it "fires a synchronous change notification to
    all registered observers".  The model counts the broadcasts. *)
Definition broadcast (this : state) : state :=
  {| base := base this;
     pivot := pivot this;
     untransformedDomain := untransformedDomain this;
     _lastRequestedTickCount := _lastRequestedTickCount this;
     _d3Scale := _d3Scale this;
     broadcasts := S (broadcasts this) |}.

Definition _setDomain (this : state) (values : R * R) : state :=
  let this := {| base := base this;
                 pivot := pivot this;
                 untransformedDomain := values;
                 _lastRequestedTickCount := _lastRequestedTickCount this;
                 _d3Scale := _d3Scale this;
                 broadcasts := broadcasts this |} in
  let transformedDomain := (adjustedLog this (fst values), adjustedLog this (snd values)) in
  let this := {| base := base this;
                 pivot := pivot this;
                 untransformedDomain := untransformedDomain this;
                 _lastRequestedTickCount := _lastRequestedTickCount this;
                 _d3Scale := D3.set_domain (_d3Scale this) transformedDomain;
                 broadcasts := broadcasts this |} in
  broadcast this.

(** Modelled from the spec: [super.ticks(count)] of the quantitative
    scale is not among the sources; "if count is provided, update
    lastRequestedTickCount first".  What it returns is dropped. *)
Definition super_ticks (this : state) (count : R) : state :=
  {| base := base this;
     pivot := pivot this;
     untransformedDomain := untransformedDomain this;
     _lastRequestedTickCount := count;
     _d3Scale := _d3Scale this;
     broadcasts := broadcasts this |}.

Definition howManyTicks (this : state) (lower upper : R) : JS.number :=
  let adjustedMin := adjustedLog this (D3.min (untransformedDomain this)) in
  let adjustedMax := adjustedLog this (D3.max (untransformedDomain this)) in
  let adjustedLower := adjustedLog this lower in
  let adjustedUpper := adjustedLog this upper in
  let proportion := JS.div (adjustedUpper - adjustedLower) (adjustedMax - adjustedMin) in
  let ticks := JS.ceil (JS.mul proportion (_lastRequestedTickCount this)) in
  ticks.

(** The body of [logTicks] once [nTicks] is a finite number other
    than zero. *)
Definition logTicks_finite (this : state) (lower upper nTicks : R) : outcome (list R) :=
  logLower <- JS.Math_log lower ;;
  logUpper <- JS.Math_log upper ;;
  logBase <- JS.Math_log (base this) ;;
  qLower <- JS.quot logLower logBase ;;
  qUpper <- JS.quot logUpper logBase ;;
  let startLogged := JS.Math_floor qLower in
  let endLogged := JS.Math_ceil qUpper in
  bases <- D3.range endLogged startLogged
             (- JS.Math_ceil ((endLogged - startLogged) / nTicks)) ;;
  perBase <- JS.quot nTicks (INR (length bases)) ;;
  let nMultiples := JS.Math_floor perBase in
  step <- JS.quot (base this - 1) nMultiples ;;
  multiples <- D3.range (base this) 1 (- step) ;;
  let multiples := map JS.Math_floor multiples in
  let uniqMultiples := Util.uniqNumbers multiples in
  let clusters :=
    map (fun b => map (fun x => JS.Math_pow (base this) (b - 1) * x) uniqMultiples)
        bases in
  let flattened := Util.flatten clusters in
  let filtered := filter (fun x => JS.leb lower x && JS.leb x upper) flattened in
  let sorted := JS.sort filtered in
  Ok sorted.

(** With [nTicks] a [NaN] every step and quotient below is [NaN], no
    comparison of [d3.range] holds, [bases] and [multiples] are empty
    and so is the result.  With an infinite [nTicks] the steps are
    zeros, which the model does not follow. *)
Definition logTicks (this : state) (lower upper : R) : outcome (list R) :=
  match howManyTicks this lower upper with
  | JS.Fin nTicks =>
      if Req_dec_T nTicks 0 then Ok [] else logTicks_finite this lower upper nTicks
  | JS.NaN => Ok []
  | JS.Infinity _ => NonFinite
  end.

(** [[x, y, z].sort((a, b) => a - b)[1]] *)
Definition middle (x y z : R) : R := nth 1 (JS.sort [x; y; z]) 0.

(** [ticks(count?)]: the scale after the call and what the call
    returns. *)
Definition ticks (this : state) (count : option R) : state * outcome (list R) :=
  let this := match count with
              | Some c => super_ticks this c
              | None => this
              end in
  let min := D3.min (untransformedDomain this) in
  let max := D3.max (untransformedDomain this) in
  let negativeLower := min in
  let negativeUpper := middle min max (- pivot this) in
  let positiveLower := middle min max (pivot this) in
  let positiveUpper := max in
  (this,
   logged <- logTicks this (- negativeUpper) (- negativeLower) ;;
   let negativeLogTicks := rev (map Ropp logged) in
   positiveLogTicks <- logTicks this positiveLower positiveUpper ;;
   let linearTicks :=
     linear_ticks (D3.set_domain D3.scale_linear (negativeUpper, positiveLower))
                  (howManyTicks this negativeUpper positiveLower) in
   Ok ((negativeLogTicks ++ linearTicks) ++ positiveLogTicks)).

Definition copy (this : state) : outcome state := constructor (Some (base this)).

Definition _niceDomain (this : state) (domain : R * R) (count : option R) : R * R :=
  domain.

End Methods.

(** What the constructor establishes and no method changes. *)
Definition wf (this : state) : Prop := 1 < base this /\ pivot this = base this.

End ModifiedLog.

(** ** The transform and the scale in double arithmetic

    The same methods over binary64 numbers, with the arithmetic and the
    comparisons of IEEE 754 that JavaScript uses.  [Math.log] and
    [Math.pow] are left to the implementation and are the two fields of a
    [Math]. *)

Module Double.

Record Math : Type := mkMath {
  Math_log : float -> float;
  Math_pow : float -> float -> float
}.

(** A number in a condition: [0], [-0] and [NaN] count as false. *)
Definition truthy (x : float) : bool :=
  negb (PrimFloat.eqb x 0) && PrimFloat.eqb x x.

(** [d3.scale.linear()] *)
Record linear : Type := mkLinear { domain : float * float; range_ : float * float }.

Definition scale_linear : linear :=
  {| domain := (0%float, 1%float); range_ := (0%float, 1%float) |}.

(** [d3_uninterpolateNumber]: [b = (b -= a) || 1 / b; (x - a) / b] *)
Definition uninterpolateNumber (a b x : float) : float :=
  let b := PrimFloat.sub b a in
  let b := if truthy b then b else PrimFloat.div 1 b in
  PrimFloat.div (PrimFloat.sub x a) b.

(** [d3_interpolateNumber]: [a * (1 - t) + b * t] *)
Definition interpolateNumber (a b t : float) : float :=
  PrimFloat.add (PrimFloat.mul a (PrimFloat.sub 1 t)) (PrimFloat.mul b t).

Definition bilinear (dom rng : float * float) (x : float) : float :=
  interpolateNumber (fst rng) (snd rng) (uninterpolateNumber (fst dom) (snd dom) x).

Definition apply (l : linear) (x : float) : float := bilinear (domain l) (range_ l) x.
Definition invert_linear (l : linear) (y : float) : float := bilinear (range_ l) (domain l) y.

Definition set_domain (l : linear) (d : float * float) : linear :=
  {| domain := d; range_ := range_ l |}.

Record state : Type := mkState {
  base : float;
  pivot : float;
  untransformedDomain : float * float;
  _lastRequestedTickCount : float;
  _d3Scale : linear;
  broadcasts : nat
}.

Definition constructor (_defaultExtent : float * float) (arg : option float) : outcome state :=
  let base := match arg with Some b => b | None => 10%float end in
  let this := {| base := base;
                 pivot := base;
                 untransformedDomain := _defaultExtent;
                 _lastRequestedTickCount := 10%float;
                 _d3Scale := scale_linear;
                 broadcasts := O |} in
  if PrimFloat.leb base 1
  then Throw "ModifiedLogScale: The base must be > 1"
  else Ok this.

Definition adjustedLog (m : Math) (this : state) (x : float) : float :=
  let negationFactor := if PrimFloat.ltb x 0 then (-1)%float else 1%float in
  let x := PrimFloat.mul x negationFactor in
  let x := if PrimFloat.ltb x (pivot this)
           then PrimFloat.add x (PrimFloat.div (PrimFloat.sub (pivot this) x) (pivot this))
           else x in
  let x := PrimFloat.div (Math_log m x) (Math_log m (base this)) in
  PrimFloat.mul x negationFactor.

Definition invertedAdjustedLog (m : Math) (this : state) (x : float) : float :=
  let negationFactor := if PrimFloat.ltb x 0 then (-1)%float else 1%float in
  let x := PrimFloat.mul x negationFactor in
  let x := Math_pow m (base this) x in
  let x := if PrimFloat.ltb x (pivot this)
           then PrimFloat.div (PrimFloat.mul (pivot this) (PrimFloat.sub x 1))
                              (PrimFloat.sub (pivot this) 1)
           else x in
  PrimFloat.mul x negationFactor.

Definition scale (m : Math) (this : state) (x : float) : float :=
  apply (_d3Scale this) (adjustedLog m this x).

Definition invert (m : Math) (this : state) (x : float) : float :=
  invertedAdjustedLog m this (invert_linear (_d3Scale this) x).

Definition _setDomain (m : Math) (this : state) (values : float * float) : state :=
  let transformedDomain := (adjustedLog m this (fst values), adjustedLog m this (snd values)) in
  {| base := base this;
     pivot := pivot this;
     untransformedDomain := values;
     _lastRequestedTickCount := _lastRequestedTickCount this;
     _d3Scale := set_domain (_d3Scale this) transformedDomain;
     broadcasts := S (broadcasts this) |}.




(** [new ModifiedLog()], and the doubles written [1e-20] and [1e-9]. *)
Definition decimal : state :=
  {| base := 10%float;
     pivot := 10%float;
     untransformedDomain := (0%float, 1%float);
     _lastRequestedTickCount := 10%float;
     _d3Scale := scale_linear;
     broadcasts := O |}.

Definition tiny : float := 0x1.79ca10c924223p-67%float.


End Double.

(** ** Auxiliary definitions for the statements below *)

Import ModifiedLog.

#[global] Arguments adjustedLog : simpl never.
#[global] Arguments invertedAdjustedLog : simpl never.

(** The number whose logarithm [adjustedLog] takes when [|x| = m]. *)
Definition blend (p m : R) : R :=
  if Rlt_dec m p then m + (p - m) / p else m.

(** What [invertedAdjustedLog] makes of the power [v] of the base. *)
Definition unblended (p v : R) : R :=
  if Rlt_dec v p then (p * (v - 1)) / (p - 1) else v.

(** The object the constructor builds for a base it accepts. *)
Definition fresh (extent : R * R) (b : R) : state :=
  {| base := b;
     pivot := b;
     untransformedDomain := extent;
     _lastRequestedTickCount := 10;
     _d3Scale := D3.scale_linear;
     broadcasts := O |}.

(** A d3 scale whose domain and range have two different ends each. *)
Definition nondegenerate (l : D3.linear) : Prop :=
  fst (D3.domain l) <> snd (D3.domain l) /\ fst (D3.range_ l) <> snd (D3.range_ l).



(** [new ModifiedLog()], base 10, with the default extent [[0, 1]], and
    the same scale after [_setDomain]. *)
Definition decimal : state := fresh (0, 1) 10.
Definition zero_width : state := _setDomain decimal (5, 5).
Definition one_to_hundred : state := _setDomain decimal (1, 100).
Definition both_sides : state := _setDomain decimal (-100, 100).

(** The domain [[10, 1000]] after [ticks(20)]. *)
Definition two_decades : state := super_ticks (_setDomain decimal (10, 1000)) 20.

(** All values of a list between two bounds. *)
Definition within (lo hi : R) (l : list R) : Prop :=
  Forall (fun x => lo <= x <= hi) l.


(** A ticking primitive for the examples: the two ends of the domain. *)
Definition end_ticks (l : D3.linear) (m : JS.number) : list R :=
  [D3.min (D3.domain l); D3.max (D3.domain l)].

(** The scales the code can build: constructed, then changed by
    [_setDomain] and [ticks] only. *)
Inductive reachable (extent : R * R)
          (linear_ticks : D3.linear -> JS.number -> list R) : state -> Prop :=
| reach_new (arg : option R) (s : state) :
    constructor extent arg = Ok s -> reachable extent linear_ticks s
| reach_setDomain (s : state) (values : R * R) :
    reachable extent linear_ticks s ->
    reachable extent linear_ticks (_setDomain s values)
| reach_ticks (s : state) (count : option R) :
    reachable extent linear_ticks s ->
    reachable extent linear_ticks (fst (ticks linear_ticks s count)).

(** Proof steps that recur in the evaluations. *)
Ltac same_list tac :=
  repeat (apply (f_equal2 (@cons R)); [tac|]); try reflexivity.

Ltac decide_mem :=
  repeat (cbn [Util.mem];
          match goal with
          | |- context [Req_dec_T ?a ?b] => destruct (Req_dec_T a b) as [?|_]; [lra|]
          end).

Ltac ascending :=
  apply Sorted_StronglySorted; [intros ? ? ?; apply Rle_trans|];
  repeat (apply Sorted_cons; [|first [apply HdRel_nil | apply HdRel_cons; lra]]);
  apply Sorted_nil.

(** ** The transform *)


Lemma blend_below (p m : R) : 1 < p -> m < p -> blend p m = 1 + m * (p - 1) / p.
Proof.
  intros Hp Hm. unfold blend. destruct (Rlt_dec m p) as [_|n]; [|lra].
  field. lra.
Qed.

Lemma blend_above (p m : R) : p <= m -> blend p m = m.
Proof.
  intros Hm. unfold blend. destruct (Rlt_dec m p); [lra|reflexivity].
Qed.

Lemma blend_0 (p : R) : 1 < p -> blend p 0 = 1.
Proof. intros Hp. rewrite blend_below by lra. field. lra. Qed.

Lemma blend_ge_1 (p m : R) : 1 < p -> 0 <= m -> 1 <= blend p m.
Proof.
  intros Hp Hm. destruct (Rlt_le_dec m p) as [Hlt|Hge].
  - rewrite blend_below by lra.
    assert (0 <= m * (p - 1) / p); [|lra].
    unfold Rdiv. apply Rmult_le_pos; [nra|].
    left. apply Rinv_0_lt_compat. lra.
  - rewrite blend_above by lra. lra.
Qed.

Lemma blend_gt_1 (p m : R) : 1 < p -> 0 < m -> 1 < blend p m.
Proof.
  intros Hp Hm. destruct (Rlt_le_dec m p) as [Hlt|Hge].
  - rewrite blend_below by lra.
    assert (0 < m * (p - 1) / p); [|lra].
    unfold Rdiv. apply Rmult_lt_0_compat; [nra|].
    apply Rinv_0_lt_compat. lra.
  - rewrite blend_above by lra. lra.
Qed.

Lemma blend_below_lt (p m : R) : 1 < p -> m < p -> blend p m < p.
Proof.
  intros Hp Hm. rewrite blend_below by lra.
  assert (m * (p - 1) / p < p - 1); [|lra].
  apply Rmult_lt_reg_r with p; [lra|].
  unfold Rdiv. rewrite Rmult_assoc, Rinv_l by lra. nra.
Qed.

Lemma blend_increasing (p m1 m2 : R) :
  1 < p -> m1 < m2 -> blend p m1 < blend p m2.
Proof.
  intros Hp Hlt.
  destruct (Rlt_le_dec m2 p) as [H2|H2].
  - rewrite !blend_below by lra.
    assert (m1 * (p - 1) / p < m2 * (p - 1) / p); [|lra].
    unfold Rdiv. apply Rmult_lt_compat_r; [apply Rinv_0_lt_compat; lra|nra].
  - rewrite (blend_above p m2) by lra.
    destruct (Rlt_le_dec m1 p) as [H1|H1].
    + pose proof (blend_below_lt p m1 Hp H1). lra.
    + rewrite blend_above by lra. lra.
Qed.


Lemma adjustedLog_nonneg (s : state) (x : R) :
  0 <= x -> adjustedLog s x = ln (blend (pivot s) x) / ln (base s).
Proof.
  intros Hx. unfold adjustedLog, blend.
  destruct (Rlt_dec x 0); [lra|].
  rewrite !Rmult_1_r. reflexivity.
Qed.

Lemma adjustedLog_neg (s : state) (x : R) :
  x < 0 -> adjustedLog s x = - (ln (blend (pivot s) (- x)) / ln (base s)).
Proof.
  intros Hx. unfold adjustedLog, blend.
  destruct (Rlt_dec x 0); [|lra].
  replace (x * -1) with (- x) by ring. ring.
Qed.

Lemma ln_base_pos (s : state) : wf s -> 0 < ln (base s).
Proof.
  intros [Hb _]. rewrite <- ln_1. apply ln_increasing; lra.
Qed.

Lemma adjustedLog_0 (s : state) : wf s -> adjustedLog s 0 = 0.
Proof.
  intros [Hb Hp]. rewrite adjustedLog_nonneg by lra.
  rewrite blend_0 by lra. rewrite ln_1. unfold Rdiv. ring.
Qed.

Lemma adjustedLog_pos (s : state) (x : R) : wf s -> 0 < x -> 0 < adjustedLog s x.
Proof.
  intros Hwf Hx. pose proof (ln_base_pos s Hwf) as Hl. destruct Hwf as [Hb Hp].
  rewrite adjustedLog_nonneg by lra.
  apply Rdiv_lt_0_compat; [|exact Hl].
  rewrite <- ln_1. apply ln_increasing; [lra|].
  apply blend_gt_1; lra.
Qed.

Lemma adjustedLog_odd (s : state) (x : R) :
  wf s -> adjustedLog s (- x) = - adjustedLog s x.
Proof.
  intros Hwf.
  destruct (Rtotal_order x 0) as [Hx|[Hx|Hx]].
  - rewrite (adjustedLog_neg s x) by lra.
    rewrite adjustedLog_nonneg by lra. ring.
  - subst x. rewrite Ropp_0, adjustedLog_0 by exact Hwf. ring.
  - rewrite (adjustedLog_neg s (- x)) by lra.
    rewrite Ropp_involutive. rewrite (adjustedLog_nonneg s x) by lra. reflexivity.
Qed.

Lemma adjustedLog_increasing_nonneg (s : state) (x1 x2 : R) :
  wf s -> 0 <= x1 -> x1 < x2 -> adjustedLog s x1 < adjustedLog s x2.
Proof.
  intros Hwf H1 Hlt. pose proof (ln_base_pos s Hwf) as Hl. destruct Hwf as [Hb Hp].
  rewrite !adjustedLog_nonneg by lra.
  unfold Rdiv. apply Rmult_lt_compat_r; [apply Rinv_0_lt_compat; exact Hl|].
  apply ln_increasing.
  - assert (1 <= blend (pivot s) x1) by (apply blend_ge_1; lra). lra.
  - apply blend_increasing; lra.
Qed.

Lemma adjustedLog_increasing (s : state) (x1 x2 : R) :
  wf s -> x1 < x2 -> adjustedLog s x1 < adjustedLog s x2.
Proof.
  intros Hwf Hlt.
  destruct (Rlt_le_dec x1 0) as [H1|H1].
  - destruct (Rlt_le_dec x2 0) as [H2|H2].
    + pose proof (adjustedLog_increasing_nonneg s (- x2) (- x1) Hwf) as H.
      rewrite !adjustedLog_odd in H by exact Hwf. lra.
    + pose proof (adjustedLog_pos s (- x1) Hwf) as Hn.
      rewrite adjustedLog_odd in Hn by exact Hwf.
      destruct H2 as [H2|H2].
      * pose proof (adjustedLog_pos s x2 Hwf H2). lra.
      * subst x2. rewrite (adjustedLog_0 s Hwf). lra.
  - apply adjustedLog_increasing_nonneg; assumption.
Qed.

Lemma adjustedLog_le (s : state) (x1 x2 : R) :
  wf s -> x1 <= x2 -> adjustedLog s x1 <= adjustedLog s x2.
Proof.
  intros Hwf [Hlt|Heq].
  - left. apply adjustedLog_increasing; assumption.
  - subst. right. reflexivity.
Qed.

Lemma adjustedLog_inj (s : state) (x1 x2 : R) :
  wf s -> adjustedLog s x1 = adjustedLog s x2 -> x1 = x2.
Proof.
  intros Hwf Heq.
  destruct (Rtotal_order x1 x2) as [H|[H|H]]; [|exact H|].
  - pose proof (adjustedLog_increasing s x1 x2 Hwf H). lra.
  - pose proof (adjustedLog_increasing s x2 x1 Hwf H). lra.
Qed.

(** At and above the pivot the scale is the logarithm to the base. *)
Lemma adjustedLog_above (s : state) (x : R) :
  wf s -> pivot s <= x -> adjustedLog s x = ln x / ln (base s).
Proof.
  intros [Hb Hp] Hx. rewrite adjustedLog_nonneg by lra.
  rewrite blend_above by lra. reflexivity.
Qed.





(** ** The owned linear scale *)

Lemma apply_nondegenerate (l : D3.linear) (x : R) :
  fst (D3.domain l) <> snd (D3.domain l) ->
  D3.apply l x =
  fst (D3.range_ l) +
  (snd (D3.range_ l) - fst (D3.range_ l)) *
  ((x - fst (D3.domain l)) / (snd (D3.domain l) - fst (D3.domain l))).
Proof.
  intros Hd. unfold D3.apply, D3.bilinear, D3.interpolateNumber, D3.uninterpolateNumber.
  destruct (Req_dec_T (snd (D3.domain l) - fst (D3.domain l)) 0) as [e|_]; [lra|].
  ring.
Qed.

Lemma apply_degenerate (l : D3.linear) (x : R) :
  fst (D3.domain l) = snd (D3.domain l) -> D3.apply l x = fst (D3.range_ l).
Proof.
  intros Hd. unfold D3.apply, D3.bilinear, D3.interpolateNumber, D3.uninterpolateNumber.
  destruct (Req_dec_T (snd (D3.domain l) - fst (D3.domain l)) 0) as [_|n]; [ring|lra].
Qed.





(** A d3 linear scale is affine: the images of [a] and [- a] lie
    symmetrically about the image of zero. *)
Lemma apply_symmetric (l : D3.linear) (a : R) :
  D3.apply l (- a) + D3.apply l a = 2 * D3.apply l 0.
Proof.
  destruct (Req_dec_T (fst (D3.domain l)) (snd (D3.domain l))) as [e|n].
  - rewrite !apply_degenerate by exact e. ring.
  - rewrite !apply_nondegenerate by exact n. field. lra.
Qed.

Lemma apply_fresh (x : R) : D3.apply D3.scale_linear x = x.
Proof.
  rewrite apply_nondegenerate by (simpl; lra). simpl. field.
Qed.

(** ** Construction *)

Lemma constructor_accepts (extent : R * R) (b : R) :
  1 < b -> constructor extent (Some b) = Ok (fresh extent b).
Proof.
  intros Hb. unfold constructor. destruct (Rle_dec b 1); [lra|reflexivity].
Qed.

Lemma constructor_rejects (extent : R * R) (b : R) :
  b <= 1 -> constructor extent (Some b) = Throw "ModifiedLogScale: The base must be > 1".
Proof.
  intros Hb. unfold constructor. destruct (Rle_dec b 1); [reflexivity|lra].
Qed.

Lemma fresh_wf (extent : R * R) (b : R) : 1 < b -> wf (fresh extent b).
Proof. intros Hb. split; [exact Hb|reflexivity]. Qed.

Lemma constructor_wf (extent : R * R) (arg : option R) (s : state) :
  constructor extent arg = Ok s -> wf s.
Proof.
  unfold constructor. destruct (Rle_dec _ 1) as [|n]; intros E; [discriminate|].
  injection E as <-. split; simpl; [lra|reflexivity].
Qed.

Lemma _setDomain_wf (s : state) (values : R * R) : wf s -> wf (_setDomain s values).
Proof. intros H. exact H. Qed.

Lemma super_ticks_wf (s : state) (c : R) : wf s -> wf (super_ticks s c).
Proof. intros H. exact H. Qed.

Lemma reachable_wf (extent : R * R) (linear_ticks : D3.linear -> JS.number -> list R)
      (s : state) :
  reachable extent linear_ticks s -> wf s.
Proof.
  induction 1 as [arg s Hc|s values _ IH|s count _ IH].
  - exact (constructor_wf extent arg s Hc).
  - apply _setDomain_wf. exact IH.
  - destruct count as [c|]; [apply super_ticks_wf|]; exact IH.
Qed.

Lemma decimal_wf : wf decimal.
Proof. apply fresh_wf. lra. Qed.

Lemma adjustedLog_same (s : state) (values : R * R) (x : R) :
  adjustedLog (_setDomain s values) x = adjustedLog s x.
Proof. reflexivity. Qed.

Lemma _setDomain_domain (s : state) (values : R * R) :
  D3.domain (_d3Scale (_setDomain s values)) =
  (adjustedLog s (fst values), adjustedLog s (snd values)).
Proof. reflexivity. Qed.

Lemma _setDomain_range (s : state) (values : R * R) :
  D3.range_ (_d3Scale (_setDomain s values)) = D3.range_ (_d3Scale s).
Proof. reflexivity. Qed.

(** [log10 (100) = 2] *)
Lemma adjustedLog_decimal_100 : adjustedLog decimal 100 = 2.
Proof.
  rewrite adjustedLog_above by (try apply decimal_wf; simpl; lra). simpl.
  replace 100 with (10 * 10) by lra.
  rewrite ln_mult by lra.
  assert (0 < ln 10) by (rewrite <- ln_1; apply ln_increasing; lra).
  field. lra.
Qed.

(** ** What rounding does to the transform *)



Lemma double_constructor :
  Double.constructor (0%float, 1%float) None = Ok Double.decimal.
Proof. reflexivity. Qed.




(** After [_setDomain([0, 1e-20])] the owned linear scale has a domain of
    no width, though the two numbers differ. *)
Lemma double_zero_width (m : Double.Math) :
  fst (Double.domain (Double._d3Scale
                        (Double._setDomain m Double.decimal (0%float, Double.tiny)))) =
  snd (Double.domain (Double._d3Scale
                        (Double._setDomain m Double.decimal (0%float, Double.tiny)))).
Proof. vm_compute. reflexivity. Qed.

(** ** Round trip, monotonicity, zero and symmetry *)

Lemma fresh_nondegenerate (extent : R * R) (b : R) : nondegenerate (_d3Scale (fresh extent b)).
Proof. split; simpl; lra. Qed.











Lemma scale_one_to_hundred_0 : scale one_to_hundred 0 < 0.
Proof.
  assert (H1 : 0 < adjustedLog decimal 1)
    by (apply adjustedLog_pos; [exact decimal_wf|lra]).
  assert (H2 : adjustedLog decimal 1 < adjustedLog decimal 100)
    by (apply adjustedLog_increasing; [exact decimal_wf|lra]).
  unfold scale, one_to_hundred. rewrite adjustedLog_same.
  rewrite apply_nondegenerate by (rewrite _setDomain_domain; simpl; lra).
  rewrite _setDomain_domain, _setDomain_range.
  rewrite (adjustedLog_0 decimal decimal_wf). simpl.
  replace (0 + (1 - 0) * ((0 - adjustedLog decimal 1) /
                          (adjustedLog decimal 100 - adjustedLog decimal 1)))
    with (- (adjustedLog decimal 1 / (adjustedLog decimal 100 - adjustedLog decimal 1)))
    by (field; lra).
  assert (0 < adjustedLog decimal 1 / (adjustedLog decimal 100 - adjustedLog decimal 1))
    by (apply Rdiv_lt_0_compat; lra).
  lra.
Qed.

(** C7, as stated, fails: with the domain [[1, 100]] the scale sends 0
    below the lower end of the range, not to 0. *)
Lemma zero_counterexample : scale one_to_hundred 0 <> 0.
Proof. pose proof scale_one_to_hundred_0. lra. Qed.

(** C7, amended: [adjustedLog(0) = 0] for every base above 1, the
    logarithm being taken of exactly 1; [scale(0)] is what the owned
    linear scale makes of 0, which is 0 for a scale just constructed. *)
Theorem zero_fixed_point (s : state) :
  wf s ->
  blend (pivot s) 0 = 1 /\
  adjustedLog s 0 = 0 /\
  scale s 0 = D3.apply (_d3Scale s) 0 /\
  (forall (extent : R * R) (arg : option R),
      constructor extent arg = Ok s -> scale s 0 = 0).
Proof.
  intros Hwf. pose proof (adjustedLog_0 s Hwf) as E.
  split; [apply blend_0; destruct Hwf; lra|].
  split; [exact E|]. split.
  - unfold scale. rewrite E. reflexivity.
  - intros extent arg Hc. unfold scale. rewrite E.
    unfold constructor in Hc. destruct (Rle_dec _ 1); [discriminate|].
    injection Hc as <-. simpl. apply apply_fresh.
Qed.

Lemma zero_fixed_point_witness : adjustedLog decimal 0 = 0 /\ scale decimal 0 = 0.
Proof.
  destruct (zero_fixed_point decimal decimal_wf) as (_ & H1 & _ & H2).
  split; [exact H1|].
  apply (H2 (0, 1) None). unfold constructor.
  destruct (Rle_dec 10 1); [lra|reflexivity].
Defined.

(** C8, as stated, fails: with the domain [[1, 100]], [scale(-1)] is not
    [- scale(1)]. *)
Lemma odd_counterexample : scale one_to_hundred (- 1) <> - scale one_to_hundred 1.
Proof.
  assert (Hwf : wf one_to_hundred) by (apply _setDomain_wf, decimal_wf).
  pose proof (apply_symmetric (_d3Scale one_to_hundred) (adjustedLog one_to_hundred 1)) as E.
  rewrite <- adjustedLog_odd in E by exact Hwf.
  pose proof scale_one_to_hundred_0 as Hz.
  unfold scale in *. rewrite (adjustedLog_0 _ Hwf) in Hz.
  replace (-1) with (Ropp 1) by lra. lra.
Qed.

(** C8, amended: [adjustedLog] is odd for every base above 1; [scale(-x)]
    and [scale(x)] lie symmetrically about [scale(0)], so that
    [scale(-x) = - scale(x)] exactly when [scale(0) = 0]. *)
Theorem odd_symmetry (s : state) (x : R) :
  wf s ->
  adjustedLog s (- x) = - adjustedLog s x /\
  scale s (- x) + scale s x = 2 * scale s 0 /\
  (scale s 0 = 0 -> scale s (- x) = - scale s x).
Proof.
  intros Hwf.
  assert (E : scale s (- x) + scale s x = 2 * scale s 0).
  { unfold scale. rewrite adjustedLog_odd, (adjustedLog_0 s Hwf) by exact Hwf.
    apply apply_symmetric. }
  split; [apply adjustedLog_odd; exact Hwf|].
  split; [exact E|]. intros Hz. lra.
Qed.

Lemma odd_symmetry_witness :
  adjustedLog decimal (- 5) = - adjustedLog decimal 5 /\
  scale decimal (- 5) = - scale decimal 5.
Proof.
  destruct (odd_symmetry decimal 5 decimal_wf) as (H1 & _ & H2).
  split; [exact H1|].
  apply H2. unfold scale. rewrite (adjustedLog_0 decimal decimal_wf). apply apply_fresh.
Defined.

(** ** Constructor, domain and the frame of [ticks] *)

(** C6: the constructor throws exactly when the base is at most 1, and
    then yields no object; for every base above 1 it returns a scale with
    that base, the pivot equal to it and a tick count of 10, on which the
    transform is defined. *)
Theorem constructor_checks_base (extent : R * R) (b : R) :
  (b <= 1 <->
   constructor extent (Some b) = Throw "ModifiedLogScale: The base must be > 1") /\
  (b <= 1 -> forall s : state, constructor extent (Some b) <> Ok s) /\
  (1 < b ->
   exists s : state,
     constructor extent (Some b) = Ok s /\
     base s = b /\ pivot s = b /\ _lastRequestedTickCount s = 10 /\ wf s).
Proof.
  split; [split|split].
  - apply constructor_rejects.
  - unfold constructor. destruct (Rle_dec b 1) as [l|n]; [intros _; exact l|discriminate].
  - intros Hb s. rewrite constructor_rejects by exact Hb. discriminate.
  - intros Hb. exists (fresh extent b).
    split; [apply constructor_accepts; exact Hb|].
    repeat split; try reflexivity. exact Hb.
Qed.

Lemma constructor_checks_base_witness :
  constructor (0, 1) (Some 1) = Throw "ModifiedLogScale: The base must be > 1" /\
  constructor (0, 1) (Some (/ 2)) = Throw "ModifiedLogScale: The base must be > 1" /\
  exists s : state, constructor (0, 1) (Some 2) = Ok s /\ pivot s = 2.
Proof.
  split; [|split].
  - apply (constructor_checks_base (0, 1) 1). lra.
  - apply (constructor_checks_base (0, 1) (/ 2)). lra.
  - destruct (constructor_checks_base (0, 1) 2) as (_ & _ & H).
    destruct H as (s & Hs & _ & Hp & _); [lra|].
    exists s. split; assumption.
Defined.

(** C9: [_setDomain([a, b])] keeps the pair as it is given, in the order
    given, puts [[adjustedLog(a), adjustedLog(b)]] as the domain of the
    owned linear scale and broadcasts once; it changes nothing else. *)
Theorem setDomain_effect (s : state) (a b : R) :
  _getDomain (_setDomain s (a, b)) = (a, b) /\
  D3.domain (_d3Scale (_setDomain s (a, b))) = (adjustedLog s a, adjustedLog s b) /\
  broadcasts (_setDomain s (a, b)) = S (broadcasts s) /\
  D3.range_ (_d3Scale (_setDomain s (a, b))) = D3.range_ (_d3Scale s) /\
  base (_setDomain s (a, b)) = base s /\
  pivot (_setDomain s (a, b)) = pivot s /\
  _lastRequestedTickCount (_setDomain s (a, b)) = _lastRequestedTickCount s.
Proof. repeat split. Qed.

(** C10: [ticks()] without a count returns the scale exactly as it was,
    the owned linear scale and the number of broadcasts included, and a
    second call returns the same ticks; the ticks do not depend on the
    owned linear scale; with a count [ticks] changes
    [_lastRequestedTickCount] to that count and nothing else. *)
Theorem ticks_frame (linear_ticks : D3.linear -> JS.number -> list R)
        (s : state) (c : R) :
  fst (ticks linear_ticks s None) = s /\
  snd (ticks linear_ticks (fst (ticks linear_ticks s None)) None) =
    snd (ticks linear_ticks s None) /\
  (forall owned : D3.linear,
      snd (ticks linear_ticks
                 (mkState (base s) (pivot s) (untransformedDomain s)
                          (_lastRequestedTickCount s) owned (broadcasts s))
                 None) =
      snd (ticks linear_ticks s None)) /\
  _lastRequestedTickCount (fst (ticks linear_ticks s (Some c))) = c /\
  base (fst (ticks linear_ticks s (Some c))) = base s /\
  pivot (fst (ticks linear_ticks s (Some c))) = pivot s /\
  untransformedDomain (fst (ticks linear_ticks s (Some c))) = untransformedDomain s /\
  _d3Scale (fst (ticks linear_ticks s (Some c))) = _d3Scale s /\
  broadcasts (fst (ticks linear_ticks s (Some c))) = broadcasts s.
Proof. repeat split. Qed.

(** ** The tick budget on a zero-width domain *)

Lemma div_by_zero (a : R) : forall r : R, JS.div a 0 <> JS.Fin r.
Proof.
  intros r. unfold JS.div. destruct (Req_dec_T 0 0) as [_|n]; [|lra].
  destruct (Rlt_dec 0 a); [discriminate|]. destruct (Rlt_dec a 0); discriminate.
Qed.

Lemma ceil_mul_not_finite (p : JS.number) (c : R) :
  (forall r : R, p <> JS.Fin r) -> forall r : R, JS.ceil (JS.mul p c) <> JS.Fin r.
Proof.
  intros Hp r. destruct p as [q| |sgn]; simpl.
  - exfalso. apply (Hp q). reflexivity.
  - discriminate.
  - destruct (Rlt_dec 0 c); [discriminate|]. destruct (Rlt_dec c 0); discriminate.
Qed.

Lemma howManyTicks_zero_width (s : state) (lower upper : R) :
  adjustedLog s (D3.min (untransformedDomain s)) =
  adjustedLog s (D3.max (untransformedDomain s)) ->
  forall r : R, howManyTicks s lower upper <> JS.Fin r.
Proof.
  intros E. unfold howManyTicks. rewrite E.
  replace (adjustedLog s (D3.max (untransformedDomain s)) -
           adjustedLog s (D3.max (untransformedDomain s))) with 0 by ring.
  apply ceil_mul_not_finite, div_by_zero.
Qed.

Lemma howManyTicks_same (s : state) (m : R) :
  adjustedLog s (D3.min (untransformedDomain s)) =
  adjustedLog s (D3.max (untransformedDomain s)) ->
  howManyTicks s m m = JS.NaN.
Proof.
  intros E. unfold howManyTicks. rewrite E.
  replace (adjustedLog s (D3.max (untransformedDomain s)) -
           adjustedLog s (D3.max (untransformedDomain s))) with 0 by ring.
  replace (adjustedLog s m - adjustedLog s m) with 0 by ring.
  unfold JS.div. destruct (Req_dec_T 0 0) as [_|n]; [|lra].
  destruct (Rlt_dec 0 0); [lra|]. reflexivity.
Qed.

(** ** Sorting *)

Lemma insert_perm (x : R) (l : list R) : Permutation (x :: l) (JS.insert x l).
Proof.
  induction l as [|y l IH]; simpl.
  - apply Permutation_refl.
  - destruct (Rle_dec x y).
    + apply Permutation_refl.
    + eapply perm_trans; [apply perm_swap|]. apply perm_skip. exact IH.
Qed.

Lemma sort_perm (l : list R) : Permutation l (JS.sort l).
Proof.
  induction l as [|x l IH]; simpl.
  - apply perm_nil.
  - eapply perm_trans; [apply perm_skip; exact IH|]. apply insert_perm.
Qed.

Lemma insert_sorted (x : R) (l : list R) :
  StronglySorted Rle l -> StronglySorted Rle (JS.insert x l).
Proof.
  induction 1 as [|y l Hs IH Hy]; simpl.
  - repeat constructor.
  - destruct (Rle_dec x y) as [Hxy|Hxy].
    + constructor; [constructor; assumption|].
      constructor; [exact Hxy|].
      eapply Forall_impl; [|exact Hy]. simpl. intros z Hz. lra.
    + constructor; [exact IH|].
      apply (Permutation_Forall (insert_perm x l)).
      constructor; [lra|exact Hy].
Qed.

Lemma sort_sorted (l : list R) : StronglySorted Rle (JS.sort l).
Proof.
  induction l as [|x l IH]; simpl.
  - constructor.
  - apply insert_sorted. exact IH.
Qed.



(** An ascending list is determined by its elements. *)
Lemma sorted_perm_eq (l1 l2 : list R) :
  StronglySorted Rle l1 -> StronglySorted Rle l2 -> Permutation l1 l2 -> l1 = l2.
Proof.
  intros H1. revert l2. induction H1 as [|x l1 Hs IH Hx]; intros l2 H2 Hp.
  - apply Permutation_nil in Hp. subst. reflexivity.
  - destruct H2 as [|y l2 Hs2 Hy].
    + apply Permutation_sym, Permutation_nil in Hp. discriminate.
    + assert (Exy : x = y).
      { assert (Hin1 : In x (y :: l2))
          by (apply (Permutation_in _ Hp); left; reflexivity).
        assert (Hin2 : In y (x :: l1))
          by (apply (Permutation_in _ (Permutation_sym Hp)); left; reflexivity).
        rewrite Forall_forall in Hx, Hy.
        destruct Hin1 as [E|Hin1]; [symmetry; exact E|].
        destruct Hin2 as [E|Hin2]; [exact E|].
        specialize (Hx y Hin2). specialize (Hy x Hin1). lra. }
      subst y. f_equal. apply IH; [exact Hs2|].
      apply Permutation_cons_inv with x. exact Hp.
Qed.

Lemma sort_eq (l target : list R) :
  StronglySorted Rle target -> Permutation l target -> JS.sort l = target.
Proof.
  intros Hs Hp. apply sorted_perm_eq; [apply sort_sorted|exact Hs|].
  eapply perm_trans; [apply Permutation_sym, sort_perm|exact Hp].
Qed.

(** The median by sorting is the third number clamped between the other
    two. *)
Lemma middle_clamp (mn mx z : R) :
  mn <= mx -> middle mn mx z = Rmax mn (Rmin mx z).
Proof.
  intros Hle. unfold middle, JS.sort, JS.insert, Rmax, Rmin.
  repeat (destruct (Rle_dec _ _); simpl); lra.
Qed.

Lemma middle_bounds (mn mx z : R) : mn <= mx -> mn <= middle mn mx z <= mx.
Proof.
  intros Hle. rewrite middle_clamp by exact Hle.
  unfold Rmax, Rmin. repeat destruct (Rle_dec _ _); lra.
Qed.


Lemma min_le_max (d : R * R) : D3.min d <= D3.max d.
Proof.
  unfold D3.min, D3.max, Rmin, Rmax. repeat destruct (Rle_dec _ _); lra.
Qed.

(** ** Floors, ceilings and [d3.range] *)

Lemma Zceil_IZR (z : Z) : Zceil (IZR z) = z.
Proof. apply Zceil_eq. rewrite <- minus_IZR. split; [apply IZR_lt; lia|lra]. Qed.

Lemma Zceil_pos (x : R) : 0 < x -> (1 <= Zceil x)%Z.
Proof.
  intros Hx. destruct (Zceil_bound x) as [_ Hu].
  assert (H : (0 < Zceil x)%Z) by (apply lt_IZR; lra). lia.
Qed.

Lemma Zceil_le_IZR (x : R) (z : Z) : x <= IZR z -> (Zceil x <= z)%Z.
Proof. intros H. rewrite <- (Zceil_IZR z). apply Zceil_le. exact H. Qed.

Lemma INR_to_nat (z : Z) : (0 <= z)%Z -> INR (Z.to_nat z) = IZR z.
Proof. intros Hz. rewrite INR_IZR_INZ, Z2Nat.id by exact Hz. reflexivity. Qed.

Lemma range_down_closed (fuel : nat) (start stop step : R) (i : nat) :
  (forall k : nat, (i <= k < i + fuel)%nat -> stop < start + step * INR k) ->
  D3.range_down fuel start stop step i =
  map (fun k => start + step * INR k) (seq i fuel).
Proof.
  revert i. induction fuel as [|fuel IH]; intros i H; simpl.
  - reflexivity.
  - destruct (Rlt_dec stop (start + step * INR i)) as [_|n].
    + f_equal. apply IH. intros k Hk. apply H. lia.
    + exfalso. apply n. apply H. lia.
Qed.

(** Below the computed length every test of the loop succeeds, and the
    test that follows fails: the loop stops by itself. *)
Lemma range_length_inside (start stop step : R) (k : nat) :
  step < 0 -> (k < D3.range_length start stop step)%nat ->
  stop < start + step * INR k.
Proof.
  unfold D3.range_length. intros Hs Hk.
  set (q := (stop - start) / step) in *.
  destruct (Zceil_bound q) as [Hl _].
  assert (Hz : (Z.of_nat k < Zceil q)%Z) by lia.
  assert (Hq : INR k < q).
  { rewrite INR_IZR_INZ. apply IZR_lt in Hz.
    assert (IZR (Z.of_nat k) <= IZR (Zceil q) - 1)
      by (rewrite <- minus_IZR; apply IZR_le; lia).
    lra. }
  assert (E : stop - start = step * q) by (unfold q; field; lra).
  assert (step * q < step * INR k) by (apply Rmult_lt_gt_compat_neg_l; assumption).
  lra.
Qed.

Lemma range_length_exhausted (start stop step : R) :
  step < 0 -> start + step * INR (D3.range_length start stop step) <= stop.
Proof.
  unfold D3.range_length. intros Hs.
  set (q := (stop - start) / step) in *.
  destruct (Zceil_bound q) as [_ Hu].
  assert (Hq : q <= INR (Z.to_nat (Zceil q))).
  { destruct (Z_le_gt_dec 0 (Zceil q)) as [Hz|Hz].
    - rewrite INR_to_nat by exact Hz. exact Hu.
    - assert (IZR (Zceil q) < 0) by (apply IZR_lt; lia).
      pose proof (pos_INR (Z.to_nat (Zceil q))). lra. }
  assert (E : stop - start = step * q) by (unfold q; field; lra).
  assert (step * INR (Z.to_nat (Zceil q)) <= step * q)
    by (apply Rmult_le_compat_neg_l; lra).
  lra.
Qed.

Lemma range_descending (start stop step : R) :
  step < 0 ->
  D3.range start stop step =
  Ok (map (fun k => start + step * INR k) (seq 0 (D3.range_length start stop step))).
Proof.
  intros Hs. unfold D3.range.
  destruct (Req_dec_T step 0); [lra|]. destruct (Rlt_dec step 0); [|lra].
  f_equal. apply range_down_closed. intros k Hk.
  apply range_length_inside; [exact Hs|lia].
Qed.

Lemma range_up_closed (fuel : nat) (start stop step : R) (i : nat) :
  (forall k : nat, (i <= k < i + fuel)%nat -> start + step * INR k < stop) ->
  D3.range_up fuel start stop step i =
  map (fun k => start + step * INR k) (seq i fuel).
Proof.
  revert i. induction fuel as [|fuel IH]; intros i H; simpl.
  - reflexivity.
  - destruct (Rlt_dec (start + step * INR i) stop) as [_|n].
    + f_equal. apply IH. intros k Hk. apply H. lia.
    + exfalso. apply n. apply H. lia.
Qed.

Lemma range_ascending (start stop step : R) :
  0 < step ->
  D3.range start stop step =
  Ok (map (fun k => start + step * INR k) (seq 0 (D3.range_length start stop step))) /\
  stop <= start + step * INR (D3.range_length start stop step).
Proof.
  intros Hs. unfold D3.range, D3.range_length.
  set (q := (stop - start) / step).
  assert (E : stop - start = step * q) by (unfold q; field; lra).
  destruct (Zceil_bound q) as [Hl Hu]. split.
  - destruct (Req_dec_T step 0); [lra|]. destruct (Rlt_dec step 0); [lra|].
    f_equal. apply range_up_closed. intros k Hk.
    assert (Hz : (Z.of_nat k < Zceil q)%Z) by lia.
    assert (INR k < q).
    { rewrite INR_IZR_INZ.
      assert (IZR (Z.of_nat k) <= IZR (Zceil q) - 1)
        by (rewrite <- minus_IZR; apply IZR_le; lia).
      lra. }
    assert (step * INR k < step * q) by (apply Rmult_lt_compat_l; assumption).
    lra.
  - assert (Hq : q <= INR (Z.to_nat (Zceil q))).
    { destruct (Z_le_gt_dec 0 (Zceil q)) as [Hz|Hz].
      - rewrite INR_to_nat by exact Hz. exact Hu.
      - assert (IZR (Zceil q) < 0) by (apply IZR_lt; lia).
        pose proof (pos_INR (Z.to_nat (Zceil q))). lra. }
    assert (step * q <= step * INR (Z.to_nat (Zceil q)))
      by (apply Rmult_le_compat_l; lra).
    lra.
Qed.

Lemma Math_log_pos (x : R) : 0 < x -> JS.Math_log x = Ok (ln x).
Proof. intros Hx. unfold JS.Math_log. destruct (Rlt_dec 0 x); [reflexivity|lra]. Qed.

Lemma quot_nonzero (a b : R) : b <> 0 -> JS.quot a b = Ok (a / b).
Proof. intros Hb. unfold JS.quot. destruct (Req_dec_T b 0); [lra|reflexivity]. Qed.

Lemma leb_true (a b : R) : JS.leb a b = true <-> a <= b.
Proof. unfold JS.leb. destruct (Rle_dec a b); split; intros; try discriminate; tauto. Qed.

Lemma filter_within (lower upper : R) (l : list R) :
  within lower upper (filter (fun x => JS.leb lower x && JS.leb x upper) l).
Proof.
  apply Forall_forall. intros x Hx. apply filter_In in Hx. destruct Hx as [_ Hx].
  apply andb_true_iff in Hx. destruct Hx as [H1 H2].
  apply leb_true in H1, H2. lra.
Qed.

Lemma sort_within (lower upper : R) (l : list R) :
  within lower upper l -> within lower upper (JS.sort l).
Proof. intros H. exact (Permutation_Forall (sort_perm l) H). Qed.

(** ** [logTicks] returns *)

Lemma logTicks_finite_returns (s : state) (lower upper : R) (z : Z) :
  wf s -> 0 < lower -> lower < upper -> (1 <= z)%Z ->
  exists l : list R,
    logTicks_finite s lower upper (IZR z) = Ok l /\
    StronglySorted Rle l /\ within lower upper l.
Proof.
  intros Hwf Hlo Hlt Hz.
  pose proof (ln_base_pos s Hwf) as Hlb. destruct Hwf as [Hb Hp].
  assert (Hn : 1 <= IZR z) by (apply IZR_le; exact Hz).
  unfold logTicks_finite.
  rewrite (Math_log_pos lower), (Math_log_pos upper), (Math_log_pos (base s)) by lra.
  cbn [bind].
  rewrite !quot_nonzero by lra. cbn [bind].
  set (qL := ln lower / ln (base s)).
  set (qU := ln upper / ln (base s)).
  assert (Hq : qL < qU).
  { unfold qL, qU, Rdiv. apply Rmult_lt_compat_r; [apply Rinv_0_lt_compat; exact Hlb|].
    apply ln_increasing; assumption. }
  set (sL := JS.Math_floor qL). set (eL := JS.Math_ceil qU).
  assert (Hse : 0 < eL - sL).
  { unfold sL, eL, JS.Math_floor, JS.Math_ceil.
    pose proof (Zfloor_bound qL). pose proof (Zceil_bound qU). lra. }
  set (c := JS.Math_ceil ((eL - sL) / IZR z)).
  assert (Hc : (eL - sL) / IZR z <= c /\ 1 <= c).
  { unfold c, JS.Math_ceil. split; [apply Zceil_bound|].
    apply IZR_le, Zceil_pos, Rdiv_lt_0_compat; lra. }
  destruct Hc as [Hc1 Hc2].
  rewrite range_descending by lra. cbn [bind].
  rewrite length_map, length_seq.
  set (n1 := D3.range_length eL sL (- c)).
  assert (Hn1 : 1 <= INR n1 <= IZR z).
  { unfold n1, D3.range_length.
    replace ((sL - eL) / - c) with ((eL - sL) / c) by (field; lra).
    assert (Hpos : 0 < (eL - sL) / c) by (apply Rdiv_lt_0_compat; lra).
    pose proof (Zceil_pos _ Hpos) as H1.
    assert (H2 : (Zceil ((eL - sL) / c) <= z)%Z).
    { apply Zceil_le_IZR. apply Rmult_le_reg_r with c; [lra|].
      unfold Rdiv. rewrite Rmult_assoc, Rinv_l, Rmult_1_r by lra.
      apply Rmult_le_reg_r with (/ IZR z); [apply Rinv_0_lt_compat; lra|].
      replace (IZR z * c * / IZR z) with c by (field; lra). exact Hc1. }
    rewrite INR_to_nat by lia. split; apply IZR_le; lia. }
  rewrite quot_nonzero by lra. cbn [bind].
  set (nM := JS.Math_floor (IZR z / INR n1)).
  assert (HnM : 1 <= nM).
  { unfold nM, JS.Math_floor. apply IZR_le, Zfloor_lub.
    apply Rmult_le_reg_r with (INR n1); [lra|].
    unfold Rdiv. rewrite Rmult_assoc, Rinv_l by lra. lra. }
  rewrite quot_nonzero by lra. cbn [bind].
  assert (Hstep : 0 < (base s - 1) / nM) by (apply Rdiv_lt_0_compat; lra).
  rewrite range_descending by lra. cbn [bind].
  eexists. split; [reflexivity|]. split.
  - apply sort_sorted.
  - apply sort_within, filter_within.
Qed.

(** The tick budget of a part of a domain of positive width, for a
    positive requested count, is a natural number, and it is zero only
    for a part of no width. *)
Lemma howManyTicks_budget (s : state) (lower upper : R) :
  wf s -> 0 < _lastRequestedTickCount s ->
  D3.min (untransformedDomain s) < D3.max (untransformedDomain s) ->
  lower <= upper ->
  exists z : Z,
    howManyTicks s lower upper = JS.Fin (IZR z) /\ (0 <= z)%Z /\
    (lower < upper -> (1 <= z)%Z).
Proof.
  intros Hwf Hc Hd Hle. unfold howManyTicks.
  pose proof (adjustedLog_increasing s _ _ Hwf Hd) as Hw.
  pose proof (adjustedLog_le s _ _ Hwf Hle) as Hp.
  unfold JS.div. destruct (Req_dec_T _ 0) as [e|_]; [lra|].
  cbn [JS.mul JS.ceil]. unfold JS.Math_ceil.
  set (q := (adjustedLog s upper - adjustedLog s lower) /
            (adjustedLog s (D3.max (untransformedDomain s)) -
             adjustedLog s (D3.min (untransformedDomain s)))).
  assert (Hq : 0 <= q).
  { unfold q, Rdiv. apply Rmult_le_pos; [lra|]. left. apply Rinv_0_lt_compat. lra. }
  exists (Zceil (q * _lastRequestedTickCount s)). split; [reflexivity|]. split.
  - assert (H : 0 <= q * _lastRequestedTickCount s) by (apply Rmult_le_pos; lra).
    destruct (Zceil_bound (q * _lastRequestedTickCount s)) as [_ Hu].
    apply le_IZR. lra.
  - intros Hlt. apply Zceil_pos. apply Rmult_lt_0_compat; [|exact Hc].
    pose proof (adjustedLog_increasing s _ _ Hwf Hlt).
    unfold q. apply Rdiv_lt_0_compat; lra.
Qed.

Lemma logTicks_returns (s : state) (lower upper : R) :
  wf s -> 0 < _lastRequestedTickCount s ->
  D3.min (untransformedDomain s) < D3.max (untransformedDomain s) ->
  lower <= upper -> (lower < upper -> 0 < lower) ->
  exists l : list R,
    logTicks s lower upper = Ok l /\ StronglySorted Rle l /\ within lower upper l.
Proof.
  intros Hwf Hc Hd Hle Hpos.
  destruct (howManyTicks_budget s lower upper Hwf Hc Hd Hle) as (z & E & Hz & Hz1).
  unfold logTicks. rewrite E.
  destruct (Req_dec_T (IZR z) 0) as [_|n].
  - exists []. repeat split; constructor.
  - destruct Hle as [Hlt|Heq].
    + apply logTicks_finite_returns; auto.
    + exfalso. apply n. subst upper.
      unfold howManyTicks in E.
      replace (adjustedLog s lower - adjustedLog s lower) with 0 in E by ring.
      pose proof (adjustedLog_increasing s _ _ Hwf Hd) as Hw.
      unfold JS.div in E. destruct (Req_dec_T _ 0) as [e|_] in E; [lra|].
      cbn [JS.mul JS.ceil] in E. unfold JS.Math_ceil in E.
      injection E as E. rewrite <- E.
      replace (0 / _ * _lastRequestedTickCount s) with 0 by (unfold Rdiv; ring).
      rewrite Zceil_IZR. reflexivity.
Qed.

Lemma logTicks_no_width (s : state) (m : R) :
  D3.min (untransformedDomain s) = D3.max (untransformedDomain s) ->
  logTicks s m m = Ok [].
Proof.
  intros E. unfold logTicks. rewrite howManyTicks_same; [reflexivity|].
  rewrite E. reflexivity.
Qed.

(** Whatever [logTicks] returns lies between its two arguments. *)
Lemma logTicks_within (s : state) (lower upper : R) (l : list R) :
  logTicks s lower upper = Ok l -> within lower upper l.
Proof.
  unfold logTicks. destruct (howManyTicks s lower upper) as [n| |sgn].
  - destruct (Req_dec_T n 0).
    + intros E. injection E as <-. constructor.
    + unfold logTicks_finite.
      repeat match goal with
             | |- bind ?m _ = _ -> _ => destruct m; cbn [bind]; try discriminate
             end.
      intros E. injection E as <-. apply sort_within, filter_within.
  - intros E. injection E as <-. constructor.
  - discriminate.
Qed.

(** ** The ticks of the whole domain *)




Lemma ticks_with_count (linear_ticks : D3.linear -> JS.number -> list R)
      (s : state) (c : R) :
  snd (ticks linear_ticks s (Some c)) = snd (ticks linear_ticks (super_ticks s c) None).
Proof. reflexivity. Qed.





(** C4: on a domain whose two ends have the same adjusted logarithm the
    proportion is a quotient by zero, and [howManyTicks] does not return a
    real number, whatever part of the domain it is asked about; [ticks]
    then hands [NaN] as the count to the ticking primitive of the linear
    scale instead of a number of ticks. *)
Theorem zero_width_budget (linear_ticks : D3.linear -> JS.number -> list R)
        (s : state) (lower upper : R) :
  adjustedLog s (D3.min (untransformedDomain s)) =
  adjustedLog s (D3.max (untransformedDomain s)) ->
  JS.div (adjustedLog s upper - adjustedLog s lower)
         (adjustedLog s (D3.max (untransformedDomain s)) -
          adjustedLog s (D3.min (untransformedDomain s))) =
    JS.div (adjustedLog s upper - adjustedLog s lower) 0 /\
  (forall r : R, howManyTicks s lower upper <> JS.Fin r) /\
  (wf s ->
   snd (ticks linear_ticks s None) =
   Ok (linear_ticks
         (D3.set_domain D3.scale_linear
            (D3.min (untransformedDomain s), D3.min (untransformedDomain s)))
         JS.NaN)).
Proof.
  intros E. split; [|split].
  - f_equal. rewrite E. ring.
  - apply howManyTicks_zero_width. exact E.
  - intros Hwf. pose proof Hwf as [Hb Hp].
    pose proof (adjustedLog_inj s _ _ Hwf E) as Em.
    unfold ticks. cbn [snd]. rewrite <- Em.
    set (mn := D3.min (untransformedDomain s)) in *.
    assert (M1 : middle mn mn (- pivot s) = mn)
      by (pose proof (middle_bounds mn mn (- pivot s) (Rle_refl mn)); lra).
    assert (M2 : middle mn mn (pivot s) = mn)
      by (pose proof (middle_bounds mn mn (pivot s) (Rle_refl mn)); lra).
    rewrite M1, M2.
    rewrite !logTicks_no_width by exact Em. cbn [bind].
    rewrite howManyTicks_same by exact E.
    simpl. rewrite app_nil_r. reflexivity.
Qed.

Lemma zero_width_budget_witness :
  (forall r : R, howManyTicks zero_width 1 9 <> JS.Fin r) /\
  snd (ticks end_ticks zero_width None) = Ok [5; 5].
Proof.
  assert (E : adjustedLog zero_width (D3.min (untransformedDomain zero_width)) =
              adjustedLog zero_width (D3.max (untransformedDomain zero_width))).
  { simpl. unfold D3.min, D3.max. simpl. rewrite Rmin_left, Rmax_left by lra. reflexivity. }
  destruct (zero_width_budget end_ticks zero_width 1 9 E) as (_ & H1 & H2).
  split; [exact H1|].
  rewrite H2 by (apply _setDomain_wf, decimal_wf).
  unfold end_ticks, D3.min, D3.max. simpl.
  repeat rewrite Rmin_left by lra. repeat rewrite Rmax_left by lra.
  reflexivity.
Defined.

(** ** Two decades and twenty ticks *)

Lemma ln_10_pos : 0 < ln 10.
Proof. rewrite <- ln_1. apply ln_increasing; lra. Qed.

Lemma ln_1000 : ln 1000 = 3 * ln 10.
Proof.
  replace 1000 with (10 * (10 * 10)) by lra.
  rewrite !ln_mult by lra. ring.
Qed.

Lemma Math_floor_IZR (z : Z) : JS.Math_floor (IZR z) = IZR z.
Proof. unfold JS.Math_floor. rewrite ZfloorZ. reflexivity. Qed.

Lemma Math_ceil_IZR (z : Z) : JS.Math_ceil (IZR z) = IZR z.
Proof. unfold JS.Math_ceil. rewrite Zceil_IZR. reflexivity. Qed.

Lemma Math_floor_eq (z : Z) (x : R) : IZR z <= x < IZR z + 1 -> JS.Math_floor x = IZR z.
Proof. intros H. unfold JS.Math_floor. rewrite (Zfloor_eq z x H). reflexivity. Qed.

Lemma Math_ceil_eq (z : Z) (x : R) : IZR z - 1 < x <= IZR z -> JS.Math_ceil x = IZR z.
Proof. intros H. unfold JS.Math_ceil. rewrite (Zceil_eq z x H). reflexivity. Qed.

Lemma pow_10_1 : JS.Math_pow 10 (2 - 1) = 10.
Proof.
  unfold JS.Math_pow. replace (2 - 1) with 1 by lra. apply Rpower_1. lra.
Qed.

Lemma pow_10_2 : JS.Math_pow 10 (3 - 1) = 100.
Proof.
  unfold JS.Math_pow. replace (3 - 1) with (1 + 1) by lra.
  rewrite Rpower_plus, Rpower_1 by lra. lra.
Qed.

Lemma two_decades_wf : wf two_decades.
Proof. apply super_ticks_wf, _setDomain_wf, decimal_wf. Qed.

Lemma two_decades_10 : adjustedLog two_decades 10 = 1.
Proof.
  rewrite adjustedLog_above by (try apply two_decades_wf; simpl; lra). simpl.
  pose proof ln_10_pos. field. lra.
Qed.

Lemma two_decades_1000 : adjustedLog two_decades 1000 = 3.
Proof.
  rewrite adjustedLog_above by (try apply two_decades_wf; simpl; lra). simpl.
  rewrite ln_1000. pose proof ln_10_pos. field. lra.
Qed.

Lemma two_decades_budget : howManyTicks two_decades 10 1000 = JS.Fin 20.
Proof.
  unfold howManyTicks.
  replace (D3.min (untransformedDomain two_decades)) with 10
    by (unfold D3.min; simpl; rewrite Rmin_left by lra; reflexivity).
  replace (D3.max (untransformedDomain two_decades)) with 1000
    by (unfold D3.max; simpl; rewrite Rmax_right by lra; reflexivity).
  rewrite two_decades_10, two_decades_1000.
  unfold JS.div. destruct (Req_dec_T (3 - 1) 0) as [e|_]; [lra|].
  cbn [JS.mul JS.ceil]. f_equal.
  replace ((3 - 1) / (3 - 1) * _lastRequestedTickCount two_decades) with 20
    by (simpl; field).
  apply Math_ceil_IZR.
Qed.

Lemma two_decades_bases : D3.range 3 1 (- (1)) = Ok [3; 2].
Proof.
  rewrite range_descending by lra.
  assert (E : D3.range_length 3 1 (- (1)) = 2%nat).
  { unfold D3.range_length. replace ((1 - 3) / - (1)) with 2 by (field; lra).
    rewrite Zceil_IZR. reflexivity. }
  rewrite E. simpl. apply f_equal. same_list lra.
Qed.

Lemma two_decades_multiples :
  D3.range 10 1 (- (9 / 10)) =
  Ok [10; 91 / 10; 82 / 10; 73 / 10; 64 / 10; 55 / 10; 46 / 10; 37 / 10; 28 / 10; 19 / 10].
Proof.
  rewrite range_descending by lra.
  assert (E : D3.range_length 10 1 (- (9 / 10)) = 10%nat).
  { unfold D3.range_length. replace ((1 - 10) / - (9 / 10)) with 10 by (field; lra).
    rewrite Zceil_IZR. reflexivity. }
  rewrite E. simpl. apply f_equal. same_list lra.
Qed.

Lemma two_decades_floors :
  map JS.Math_floor
      [10; 91 / 10; 82 / 10; 73 / 10; 64 / 10; 55 / 10; 46 / 10; 37 / 10; 28 / 10; 19 / 10] =
  [10; 9; 8; 7; 6; 5; 4; 3; 2; 1].
Proof.
  cbn [map].
  same_list ltac:(idtac; match goal with
                  | |- JS.Math_floor _ = IZR ?z => apply (Math_floor_eq z); lra
                  end).
Qed.

Lemma two_decades_uniq :
  Util.uniqNumbers [10; 9; 8; 7; 6; 5; 4; 3; 2; 1] = [10; 9; 8; 7; 6; 5; 4; 3; 2; 1].
Proof.
  unfold Util.uniqNumbers.
  repeat (cbn [Util.uniq_from]; decide_mem; cbn [Util.mem]).
  reflexivity.
Qed.

Lemma filter_all_within (lower upper : R) (l : list R) :
  within lower upper l ->
  filter (fun x => JS.leb lower x && JS.leb x upper) l = l.
Proof.
  induction 1 as [|x l Hx Hl IH]; cbn [filter].
  - reflexivity.
  - rewrite (proj2 (leb_true lower x)), (proj2 (leb_true x upper)) by lra.
    cbn [andb]. rewrite IH. reflexivity.
Qed.

Lemma two_decades_logTicks :
  logTicks two_decades 10 1000 =
  Ok [10; 20; 30; 40; 50; 60; 70; 80; 90; 100;
      100; 200; 300; 400; 500; 600; 700; 800; 900; 1000].
Proof.
  pose proof ln_10_pos as Hln.
  unfold logTicks. rewrite two_decades_budget.
  destruct (Req_dec_T 20 0) as [e|_]; [lra|].
  unfold logTicks_finite. change (base two_decades) with 10.
  rewrite (Math_log_pos 10), (Math_log_pos 1000) by lra. cbn [bind].
  rewrite !quot_nonzero by lra. cbn [bind].
  replace (ln 10 / ln 10) with 1 by (field; lra).
  replace (ln 1000 / ln 10) with 3 by (rewrite ln_1000; field; lra).
  rewrite (Math_floor_IZR 1), (Math_ceil_IZR 3).
  replace (JS.Math_ceil ((3 - 1) / 20)) with 1
    by (symmetry; apply (Math_ceil_eq 1); lra).
  rewrite two_decades_bases. cbn [bind length].
  assert (E2 : INR 2 = 2) by (simpl; lra). rewrite E2.
  rewrite quot_nonzero by lra. cbn [bind].
  replace (JS.Math_floor (20 / 2)) with 10
    by (symmetry; apply (Math_floor_eq 10); lra).
  rewrite quot_nonzero by lra. cbn [bind].
  replace (10 - 1) with 9 by lra.
  rewrite two_decades_multiples. cbn [bind].
  rewrite two_decades_floors, two_decades_uniq.
  cbn [map]. rewrite pow_10_1, pow_10_2.
  unfold Util.flatten. cbn [concat app].
  rewrite filter_all_within
    by (repeat (apply Forall_cons; [lra|]); apply Forall_nil).
  apply f_equal. apply sort_eq; [ascending|].
  match goal with
  | |- Permutation ?l ?t => replace l with (rev t); [apply Permutation_sym, Permutation_rev|]
  end.
  cbn [rev app]. same_list lra.
Qed.

(** C5: with base 10, the domain [[10, 1000]] and twenty requested ticks,
    [logTicks(10, 1000)] returns 100 twice, once as the multiple 1 of the
    decade of 100 and once as the multiple 10 of the decade of 10: the
    values returned are not all different, though all of them lie between
    10 and 1000. *)
Theorem logTicks_duplicate :
  exists l : list R,
    logTicks two_decades 10 1000 = Ok l /\
    l = [10; 20; 30; 40; 50; 60; 70; 80; 90; 100;
         100; 200; 300; 400; 500; 600; 700; 800; 900; 1000] /\
    within 10 1000 l /\
    ~ NoDup l.
Proof.
  eexists. split; [apply two_decades_logTicks|]. split; [reflexivity|]. split.
  - apply (logTicks_within two_decades). apply two_decades_logTicks.
  - intros H.
    do 9 (apply NoDup_cons_iff in H; destruct H as [_ H]).
    apply NoDup_cons_iff in H. destruct H as [H _]. apply H. left. reflexivity.
Qed.

(** [two_decades] is the scale after [new ModifiedLog()],
    [_setDomain([10, 1000])] and [ticks(20)]. *)
Lemma two_decades_reached (linear_ticks : D3.linear -> JS.number -> list R) :
  exists s : state,
    constructor (0, 1) None = Ok s /\
    fst (ticks linear_ticks (_setDomain s (10, 1000)) (Some 20)) = two_decades.
Proof.
  exists decimal. split; [|reflexivity].
  unfold constructor. destruct (Rle_dec 10 1); [lra|reflexivity].
Qed.

(** ** The inverse transform *)

Lemma invertedAdjustedLog_nonneg (s : state) (y : R) :
  0 <= y ->
  invertedAdjustedLog s y = unblended (pivot s) (JS.Math_pow (base s) y).
Proof.
  intros Hy. unfold invertedAdjustedLog, unblended.
  destruct (Rlt_dec y 0); [lra|]. rewrite !Rmult_1_r. reflexivity.
Qed.

Lemma invertedAdjustedLog_neg (s : state) (y : R) :
  y < 0 ->
  invertedAdjustedLog s y = - unblended (pivot s) (JS.Math_pow (base s) (- y)).
Proof.
  intros Hy. unfold invertedAdjustedLog, unblended.
  destruct (Rlt_dec y 0); [|lra].
  replace (y * -1) with (- y) by ring. ring.
Qed.

(** X2: [invertedAdjustedLog] is odd, and it keeps zero. *)
Theorem invertedAdjustedLog_odd (s : state) (y : R) :
  wf s ->
  invertedAdjustedLog s (- y) = - invertedAdjustedLog s y /\
  invertedAdjustedLog s 0 = 0.
Proof.
  intros [Hb Hp].
  assert (E0 : invertedAdjustedLog s 0 = 0).
  { rewrite invertedAdjustedLog_nonneg by lra.
    unfold JS.Math_pow. rewrite Rpower_O by lra.
    unfold unblended. destruct (Rlt_dec 1 (pivot s)); [|lra].
    unfold Rdiv. ring. }
  split; [|exact E0].
  destruct (Rtotal_order y 0) as [Hy|[Hy|Hy]].
  - rewrite (invertedAdjustedLog_neg s y) by exact Hy.
    rewrite invertedAdjustedLog_nonneg by lra. ring.
  - subst y. rewrite Ropp_0, E0. ring.
  - rewrite (invertedAdjustedLog_neg s (- y)) by lra.
    rewrite Ropp_involutive.
    rewrite (invertedAdjustedLog_nonneg s y) by lra. reflexivity.
Qed.

Lemma invertedAdjustedLog_odd_witness :
  invertedAdjustedLog decimal (- 2) = - invertedAdjustedLog decimal 2 /\
  invertedAdjustedLog decimal 0 = 0.
Proof.
  exact (invertedAdjustedLog_odd decimal 2 decimal_wf).
Defined.

(** ** The scale after [_setDomain] *)

(** X5: after [_setDomain([a, b])], when the adjusted logarithms of [a]
    and [b] differ, the scale sends [a] to the first end of the range and
    [b] to the second. *)
Theorem domain_ends_to_range_ends (s : state) (a b : R) :
  adjustedLog s a <> adjustedLog s b ->
  scale (_setDomain s (a, b)) a = fst (D3.range_ (_d3Scale s)) /\
  scale (_setDomain s (a, b)) b = snd (D3.range_ (_d3Scale s)).
Proof.
  intros Hd. unfold scale. rewrite !adjustedLog_same.
  rewrite !apply_nondegenerate by (rewrite _setDomain_domain; exact Hd).
  rewrite _setDomain_domain, _setDomain_range. cbn [fst snd].
  split; field; lra.
Qed.

Lemma domain_ends_to_range_ends_witness :
  scale one_to_hundred 1 = 0 /\ scale one_to_hundred 100 = 1.
Proof.
  apply (domain_ends_to_range_ends decimal 1 100).
  intros E. apply (adjustedLog_inj decimal 1 100 decimal_wf) in E. lra.
Defined.

(** X6: after [_setDomain([a, b])], when the adjusted logarithms of [a]
    and [b] are the same, as they are for [a = b], the scale is constant:
    every number goes to the first end of the range. *)
Theorem zero_width_constant (s : state) (a b x : R) :
  adjustedLog s a = adjustedLog s b ->
  scale (_setDomain s (a, b)) x = fst (D3.range_ (_d3Scale s)).
Proof.
  intros E. unfold scale.
  rewrite apply_degenerate by (rewrite _setDomain_domain; exact E).
  apply (f_equal fst (_setDomain_range s (a, b))).
Qed.

Lemma zero_width_constant_witness : scale zero_width 7 = 0.
Proof.
  exact (zero_width_constant decimal 5 5 7 eq_refl).
Defined.

(** X8: [copy] of a scale the code can build never throws, and the copy
    has the base and the pivot of the original and nothing else of it:
    the default extent as its domain, a tick count of 10, a new linear
    scale and no broadcast. *)
Theorem copy_is_cold (extent : R * R) (linear_ticks : D3.linear -> JS.number -> list R)
        (s : state) :
  reachable extent linear_ticks s ->
  exists s' : state,
    copy extent s = Ok s' /\
    base s' = base s /\ pivot s' = pivot s /\
    untransformedDomain s' = extent /\
    _lastRequestedTickCount s' = 10 /\
    _d3Scale s' = D3.scale_linear /\
    broadcasts s' = O /\
    reachable extent linear_ticks s'.
Proof.
  intros Hr. destruct (reachable_wf _ _ _ Hr) as [Hb Hp].
  exists (fresh extent (base s)).
  assert (E : copy extent s = Ok (fresh extent (base s)))
    by (apply constructor_accepts; exact Hb).
  split; [exact E|]. repeat split.
  - simpl. symmetry. exact Hp.
  - apply (reach_new extent linear_ticks (Some (base s))). exact E.
Qed.

Lemma copy_is_cold_witness :
  exists s' : state,
    copy (0, 1) two_decades = Ok s' /\
    untransformedDomain s' = (0, 1) /\ _lastRequestedTickCount s' = 10.
Proof.
  assert (Hr : reachable (0, 1) end_ticks two_decades).
  { apply (reach_ticks (0, 1) end_ticks (_setDomain decimal (10, 1000)) (Some 20)).
    apply reach_setDomain. apply (reach_new (0, 1) end_ticks None).
    unfold constructor. destruct (Rle_dec 10 1); [lra|reflexivity]. }
  destruct (copy_is_cold (0, 1) end_ticks two_decades Hr)
    as (s' & E & _ & _ & Hd & Hc & _).
  exists s'. split; [exact E|]. split; [exact Hd|exact Hc].
Defined.

(** X9: [middle] is the median of its three arguments in whatever order
    they come; for the breakpoints of [ticks] it is the pivot, or its
    negative, clamped to the domain. *)
Theorem middle_median (x y z : R) :
  middle x y z = Rmax (Rmin x y) (Rmin (Rmax x y) z) /\
  middle x y z = middle y x z /\
  middle x y z = middle x z y.
Proof.
  unfold middle, JS.sort, JS.insert, Rmax, Rmin.
  repeat split; repeat (destruct (Rle_dec _ _); simpl); lra.
Qed.

(** ** The tick budget *)

Lemma howManyTicks_finite (s : state) (lower upper : R) :
  adjustedLog s (D3.min (untransformedDomain s)) <>
  adjustedLog s (D3.max (untransformedDomain s)) ->
  howManyTicks s lower upper =
  JS.Fin (JS.Math_ceil
            ((adjustedLog s upper - adjustedLog s lower) /
             (adjustedLog s (D3.max (untransformedDomain s)) -
              adjustedLog s (D3.min (untransformedDomain s))) *
             _lastRequestedTickCount s)).
Proof.
  intros Hd. unfold howManyTicks.
  unfold JS.div. destruct (Req_dec_T _ 0) as [e|_]; [lra|]. reflexivity.
Qed.

Lemma howManyTicks_point (s : state) (x : R) :
  adjustedLog s (D3.min (untransformedDomain s)) <>
  adjustedLog s (D3.max (untransformedDomain s)) ->
  howManyTicks s x x = JS.Fin 0.
Proof.
  intros Hd. rewrite howManyTicks_finite by assumption. f_equal.
  replace (adjustedLog s x - adjustedLog s x) with 0 by ring.
  replace (0 / _ * _lastRequestedTickCount s) with 0 by (unfold Rdiv; ring).
  apply (Math_ceil_IZR 0).
Qed.

Lemma howManyTicks_whole (s : state) :
  adjustedLog s (D3.min (untransformedDomain s)) <>
  adjustedLog s (D3.max (untransformedDomain s)) ->
  howManyTicks s (D3.min (untransformedDomain s)) (D3.max (untransformedDomain s)) =
  JS.Fin (JS.Math_ceil (_lastRequestedTickCount s)).
Proof.
  intros Hd. rewrite howManyTicks_finite by assumption. do 2 f_equal.
  field. lra.
Qed.

(** X10: when the adjusted logarithms of the two ends of the domain
    differ, the budget of a part of no width is 0 and the budget of the
    whole domain is the requested count rounded up. *)
Theorem budget_of_point_and_whole (s : state) (x : R) :
  adjustedLog s (D3.min (untransformedDomain s)) <>
  adjustedLog s (D3.max (untransformedDomain s)) ->
  howManyTicks s x x = JS.Fin 0 /\
  howManyTicks s (D3.min (untransformedDomain s)) (D3.max (untransformedDomain s)) =
    JS.Fin (JS.Math_ceil (_lastRequestedTickCount s)).
Proof.
  intros Hd. split; [apply howManyTicks_point|apply howManyTicks_whole]; exact Hd.
Qed.

Lemma one_to_hundred_domain :
  D3.min (untransformedDomain one_to_hundred) = 1 /\
  D3.max (untransformedDomain one_to_hundred) = 100.
Proof.
  unfold D3.min, D3.max. simpl. rewrite Rmin_left, Rmax_right by lra. split; reflexivity.
Qed.

Lemma one_to_hundred_ends :
  adjustedLog one_to_hundred (D3.min (untransformedDomain one_to_hundred)) <>
  adjustedLog one_to_hundred (D3.max (untransformedDomain one_to_hundred)).
Proof.
  destruct one_to_hundred_domain as [Emin Emax]. rewrite Emin, Emax.
  intros E. apply (adjustedLog_inj decimal 1 100 decimal_wf) in E. lra.
Qed.

Lemma budget_of_point_and_whole_witness :
  howManyTicks one_to_hundred 7 7 = JS.Fin 0 /\
  howManyTicks one_to_hundred 1 100 = JS.Fin (JS.Math_ceil 10).
Proof.
  destruct one_to_hundred_domain as [Emin Emax].
  pose proof (budget_of_point_and_whole one_to_hundred 7 one_to_hundred_ends) as H.
  rewrite Emin, Emax in H. exact H.
Defined.

(** ** Which parts of the domain get ticks *)

Lemma logTicks_point (s : state) (x : R) :
  adjustedLog s (D3.min (untransformedDomain s)) <>
  adjustedLog s (D3.max (untransformedDomain s)) ->
  logTicks s x x = Ok [].
Proof.
  intros Hd. unfold logTicks. rewrite howManyTicks_point by assumption.
  destruct (Req_dec_T 0 0); [reflexivity|lra].
Qed.

(** X12: when the whole domain lies between minus the pivot and the
    pivot, and the adjusted logarithms of its two ends differ, [ticks]
    returns no logarithmic tick at all: its result is what the linear
    ticking primitive returns for the whole domain and the requested
    count rounded up. *)
Theorem ticks_linear_only (linear_ticks : D3.linear -> JS.number -> list R) (s : state) :
  adjustedLog s (D3.min (untransformedDomain s)) <>
  adjustedLog s (D3.max (untransformedDomain s)) ->
  - pivot s <= D3.min (untransformedDomain s) ->
  D3.max (untransformedDomain s) <= pivot s ->
  snd (ticks linear_ticks s None) =
  Ok (linear_ticks
        (D3.set_domain D3.scale_linear
           (D3.min (untransformedDomain s), D3.max (untransformedDomain s)))
        (JS.Fin (JS.Math_ceil (_lastRequestedTickCount s)))).
Proof.
  intros Hd Hlo Hhi. unfold ticks. cbn [snd].
  pose proof (min_le_max (untransformedDomain s)) as Hmm.
  assert (M1 : middle (D3.min (untransformedDomain s)) (D3.max (untransformedDomain s))
                      (- pivot s) = D3.min (untransformedDomain s)).
  { rewrite middle_clamp by lra. unfold Rmax, Rmin.
    repeat destruct (Rle_dec _ _); lra. }
  assert (M2 : middle (D3.min (untransformedDomain s)) (D3.max (untransformedDomain s))
                      (pivot s) = D3.max (untransformedDomain s)).
  { rewrite middle_clamp by lra. unfold Rmax, Rmin.
    repeat destruct (Rle_dec _ _); lra. }
  rewrite M1, M2.
  rewrite !logTicks_point by assumption. cbn [bind].
  rewrite howManyTicks_whole by assumption.
  cbn [rev map app]. rewrite app_nil_r. reflexivity.
Qed.

Lemma ticks_linear_only_witness :
  snd (ticks end_ticks (_setDomain decimal (-5, 5)) None) = Ok [-5; 5].
Proof.
  assert (Emin : D3.min (untransformedDomain (_setDomain decimal (-5, 5))) = -5)
    by (unfold D3.min; simpl; rewrite Rmin_left by lra; reflexivity).
  assert (Emax : D3.max (untransformedDomain (_setDomain decimal (-5, 5))) = 5)
    by (unfold D3.max; simpl; rewrite Rmax_right by lra; reflexivity).
  rewrite (ticks_linear_only end_ticks (_setDomain decimal (-5, 5)));
    try rewrite Emin; try rewrite Emax; try (simpl; lra).
  - unfold end_ticks, D3.min, D3.max. simpl.
    rewrite Rmin_left, Rmax_right by lra. reflexivity.
  - intros E. apply (adjustedLog_inj decimal (-5) 5 decimal_wf) in E. lra.
Defined.

(** X13: when the whole domain lies at or above the pivot and the
    adjusted logarithms of its two ends differ, the negative part is
    empty and the linear part is the single point [min], with a budget of
    zero: for a positive count [ticks] returns what the linear ticking
    primitive makes of that, followed by the logarithmic ticks of the
    whole domain. *)
Theorem ticks_above_pivot (linear_ticks : D3.linear -> JS.number -> list R) (s : state) :
  wf s -> 0 < _lastRequestedTickCount s ->
  adjustedLog s (D3.min (untransformedDomain s)) <>
  adjustedLog s (D3.max (untransformedDomain s)) ->
  pivot s <= D3.min (untransformedDomain s) ->
  exists l : list R,
    logTicks s (D3.min (untransformedDomain s)) (D3.max (untransformedDomain s)) = Ok l /\
    snd (ticks linear_ticks s None) =
    Ok (linear_ticks
          (D3.set_domain D3.scale_linear
             (D3.min (untransformedDomain s), D3.min (untransformedDomain s)))
          (JS.Fin 0) ++ l).
Proof.
  intros Hwf Hc Hne Hp. pose proof Hwf as [Hb Hpb].
  assert (Hd : D3.min (untransformedDomain s) < D3.max (untransformedDomain s)).
  { destruct (min_le_max (untransformedDomain s)) as [H|H]; [exact H|].
    exfalso. apply Hne. rewrite H. reflexivity. }
  destruct (logTicks_returns s (D3.min (untransformedDomain s))
                             (D3.max (untransformedDomain s)) Hwf Hc Hd)
    as (l & E & _); [lra|intros _; lra|].
  exists l. split; [exact E|].
  unfold ticks. cbn [snd].
  assert (M1 : middle (D3.min (untransformedDomain s)) (D3.max (untransformedDomain s))
                      (- pivot s) = D3.min (untransformedDomain s)).
  { rewrite middle_clamp by lra. unfold Rmax, Rmin.
    repeat destruct (Rle_dec _ _); lra. }
  assert (M2 : middle (D3.min (untransformedDomain s)) (D3.max (untransformedDomain s))
                      (pivot s) = D3.min (untransformedDomain s)).
  { rewrite middle_clamp by lra. unfold Rmax, Rmin.
    repeat destruct (Rle_dec _ _); lra. }
  rewrite M1, M2.
  rewrite logTicks_point by assumption. cbn [bind].
  rewrite E. cbn [bind].
  rewrite howManyTicks_point by assumption. reflexivity.
Qed.

Lemma ticks_above_pivot_witness :
  exists l : list R,
    logTicks two_decades 10 1000 = Ok l /\
    snd (ticks end_ticks two_decades None) = Ok ([10; 10] ++ l).
Proof.
  assert (Emin : D3.min (untransformedDomain two_decades) = 10)
    by (unfold D3.min; simpl; rewrite Rmin_left by lra; reflexivity).
  assert (Emax : D3.max (untransformedDomain two_decades) = 1000)
    by (unfold D3.max; simpl; rewrite Rmax_right by lra; reflexivity).
  destruct (ticks_above_pivot end_ticks two_decades two_decades_wf) as (l & E & Et);
    try rewrite Emin; try rewrite Emax; try (simpl; lra).
  - rewrite two_decades_10, two_decades_1000. lra.
  - rewrite Emin, Emax in E. rewrite Emin in Et.
    exists l. split; [exact E|].
    rewrite Et. unfold end_ticks, D3.min, D3.max. simpl.
    rewrite Rmin_left, Rmax_left by lra. reflexivity.
Defined.

(** ** The clusters of [logTicks] *)

Lemma logTicks_finite_shape (s : state) (lower upper : R) (z : Z) :
  wf s -> 0 < lower -> lower < upper -> (1 <= z)%Z ->
  exists (e c nM : Z) (n1 : nat),
    e = Zceil (ln upper / ln (base s)) /\ (1 <= n1)%nat /\
    (1 <= c)%Z /\ (1 <= nM)%Z /\ (Z.of_nat n1 * nM <= z)%Z /\
    logTicks_finite s lower upper (IZR z) =
    Ok (JS.sort
          (filter (fun x => JS.leb lower x && JS.leb x upper)
             (Util.flatten
                (map (fun b =>
                        map (fun x => JS.Math_pow (base s) (b - 1) * x)
                            (Util.uniqNumbers
                               (map JS.Math_floor
                                  (map (fun k => base s + - ((base s - 1) / IZR nM) * INR k)
                                       (seq 0 (Z.to_nat nM))))))
                     (map (fun k => IZR e + - IZR c * INR k) (seq 0 n1)))))).
Proof.
  intros Hwf Hlo Hlt Hz.
  pose proof (ln_base_pos s Hwf) as Hlb. destruct Hwf as [Hb Hp].
  assert (Hn : 1 <= IZR z) by (apply IZR_le; exact Hz).
  unfold logTicks_finite.
  rewrite (Math_log_pos lower), (Math_log_pos upper), (Math_log_pos (base s)) by lra.
  cbn [bind].
  rewrite !quot_nonzero by lra. cbn [bind].
  unfold JS.Math_ceil at 1 2 3. unfold JS.Math_floor at 1 2 3.
  set (qL := ln lower / ln (base s)).
  set (qU := ln upper / ln (base s)).
  assert (Hq : qL < qU).
  { unfold qL, qU, Rdiv. apply Rmult_lt_compat_r; [apply Rinv_0_lt_compat; exact Hlb|].
    apply ln_increasing; assumption. }
  assert (Hse : 0 < IZR (Zceil qU) - IZR (Zfloor qL)).
  { pose proof (Zfloor_bound qL). pose proof (Zceil_bound qU). lra. }
  remember (IZR (Zceil qU) - IZR (Zfloor qL)) as d eqn:Ed.
  assert (Hc : (1 <= Zceil (d / IZR z))%Z) by (apply Zceil_pos, Rdiv_lt_0_compat; lra).
  assert (Hc1 : d / IZR z <= IZR (Zceil (d / IZR z))) by apply Zceil_bound.
  remember (Zceil (d / IZR z)) as c eqn:Ec.
  assert (Hcr : 1 <= IZR c) by (apply IZR_le; exact Hc).
  rewrite range_descending by lra. cbn [bind].
  rewrite length_map, length_seq.
  remember (D3.range_length (IZR (Zceil qU)) (IZR (Zfloor qL)) (- IZR c)) as n1 eqn:En1.
  assert (Hn1 : 1 <= INR n1 <= IZR z).
  { rewrite En1. unfold D3.range_length.
    replace ((IZR (Zfloor qL) - IZR (Zceil qU)) / - IZR c) with (d / IZR c)
      by (rewrite Ed; field; lra).
    assert (Hpos : 0 < d / IZR c) by (apply Rdiv_lt_0_compat; lra).
    pose proof (Zceil_pos _ Hpos) as H1.
    assert (H2 : (Zceil (d / IZR c) <= z)%Z).
    { apply Zceil_le_IZR. apply Rmult_le_reg_r with (IZR c); [lra|].
      unfold Rdiv. rewrite Rmult_assoc, Rinv_l, Rmult_1_r by lra.
      apply Rmult_le_reg_r with (/ IZR z); [apply Rinv_0_lt_compat; lra|].
      replace (IZR z * IZR c * / IZR z) with (IZR c) by (field; lra). exact Hc1. }
    rewrite INR_to_nat by lia. split; apply IZR_le; lia. }
  rewrite quot_nonzero by lra. cbn [bind].
  assert (HnM : (1 <= Zfloor (IZR z / INR n1))%Z).
  { apply Zfloor_lub. apply Rmult_le_reg_r with (INR n1); [lra|].
    unfold Rdiv. rewrite Rmult_assoc, Rinv_l by lra. lra. }
  assert (HnM2 : IZR (Zfloor (IZR z / INR n1)) * INR n1 <= IZR z).
  { destruct (Zfloor_bound (IZR z / INR n1)) as [Hf _].
    apply Rmult_le_compat_r with (r := INR n1) in Hf; [|lra].
    unfold Rdiv in Hf. rewrite Rmult_assoc, Rinv_l, Rmult_1_r in Hf by lra. exact Hf. }
  remember (Zfloor (IZR z / INR n1)) as nM eqn:EnM.
  assert (HnMr : 1 <= IZR nM) by (apply IZR_le; exact HnM).
  rewrite quot_nonzero by lra. cbn [bind].
  assert (Hstep : 0 < (base s - 1) / IZR nM) by (apply Rdiv_lt_0_compat; lra).
  rewrite range_descending by lra. cbn [bind].
  assert (El : D3.range_length (base s) 1 (- ((base s - 1) / IZR nM)) = Z.to_nat nM).
  { unfold D3.range_length.
    replace ((1 - base s) / - ((base s - 1) / IZR nM)) with (IZR nM) by (field; lra).
    rewrite Zceil_IZR. reflexivity. }
  rewrite El.
  exists (Zceil qU), c, nM, n1.
  split; [reflexivity|]. split; [apply INR_le; simpl; lra|].
  split; [exact Hc|]. split; [exact HnM|]. split; [|reflexivity].
  apply le_IZR. rewrite mult_IZR, <- INR_IZR_INZ. lra.
Qed.

Lemma uniq_from_In (seen a : list R) (x : R) :
  In x (Util.uniq_from seen a) -> In x a.
Proof.
  revert seen. induction a as [|n a IH]; intros seen; simpl.
  - tauto.
  - destruct (Util.mem n seen).
    + intros H. right. exact (IH seen H).
    + intros [H|H]; [left; exact H|right; exact (IH _ H)].
Qed.

Lemma logTicks_regular (s : state) (lower upper : R) :
  wf s -> 0 < _lastRequestedTickCount s ->
  D3.min (untransformedDomain s) < D3.max (untransformedDomain s) ->
  lower < upper ->
  exists z : Z,
    (1 <= z)%Z /\ howManyTicks s lower upper = JS.Fin (IZR z) /\
    logTicks s lower upper = logTicks_finite s lower upper (IZR z).
Proof.
  intros Hwf Hc Hd Hlt.
  destruct (howManyTicks_budget s lower upper Hwf Hc Hd (Rlt_le _ _ Hlt))
    as (z & E & _ & Hz).
  specialize (Hz Hlt). exists z. split; [exact Hz|]. split; [exact E|].
  unfold logTicks. rewrite E.
  destruct (Req_dec_T (IZR z) 0) as [e|_]; [|reflexivity].
  apply eq_IZR in e. lia.
Qed.

(** X15: on a domain of positive width and for a positive count, every
    value [logTicks] returns over a positive part of some width is a
    whole multiple of a power of the base with a whole exponent, the
    multiple being at least 1 and at most the base. *)
Theorem logTicks_multiples_of_powers (s : state) (lower upper : R) :
  wf s -> 0 < _lastRequestedTickCount s ->
  D3.min (untransformedDomain s) < D3.max (untransformedDomain s) ->
  0 < lower -> lower < upper ->
  exists l : list R,
    logTicks s lower upper = Ok l /\
    Forall (fun x => exists d m : Z,
                x = JS.Math_pow (base s) (IZR d) * IZR m /\
                (1 <= m)%Z /\ IZR m <= base s) l.
Proof.
  intros Hwf Hc Hd Hlo Hlt.
  destruct (logTicks_regular s lower upper Hwf Hc Hd Hlt) as (z & Hz & E & El).
  destruct (logTicks_finite_shape s lower upper z Hwf Hlo Hlt Hz)
    as (e & c & nM & n1 & _ & _ & Hc1 & HnM & Hprod & Es).
  destruct Hwf as [Hb Hp].
  eexists. split; [rewrite El; exact Es|].
  apply Forall_forall. intros x Hx.
  apply (Permutation_in _ (Permutation_sym (sort_perm _))) in Hx.
  apply filter_In in Hx. destruct Hx as [Hx _].
  unfold Util.flatten in Hx. apply in_concat in Hx.
  destruct Hx as (cluster & Hcl & Hx).
  apply in_map_iff in Hcl. destruct Hcl as (b & <- & Hb').
  apply in_map_iff in Hx. destruct Hx as (m & <- & Hm).
  apply in_map_iff in Hb'. destruct Hb' as (k & <- & _).
  apply uniq_from_In in Hm.
  apply in_map_iff in Hm. destruct Hm as (v & <- & Hv).
  apply in_map_iff in Hv. destruct Hv as (j & <- & Hj).
  apply in_seq in Hj.
  assert (HnMr : 1 <= IZR nM) by (apply IZR_le; exact HnM).
  assert (Hjr : INR j <= IZR nM - 1).
  { rewrite INR_IZR_INZ, <- minus_IZR. apply IZR_le. lia. }
  assert (Hj0 : 0 <= INR j) by apply pos_INR.
  remember (base s + - ((base s - 1) / IZR nM) * INR j) as v eqn:Ev.
  assert (Hv : 1 < v <= base s).
  { assert (Hs : 0 < (base s - 1) / IZR nM) by (apply Rdiv_lt_0_compat; lra).
    assert (Hm1 : (base s - 1) / IZR nM * IZR nM = base s - 1) by (field; lra).
    remember ((base s - 1) / IZR nM) as st eqn:Est.
    rewrite Ev. split; nra. }
  exists (e - c * Z.of_nat k - 1)%Z, (Zfloor v).
  split; [|split].
  - unfold JS.Math_floor. f_equal. f_equal.
    rewrite !minus_IZR, mult_IZR, <- INR_IZR_INZ. ring.
  - apply Zfloor_lub. lra.
  - destruct (Zfloor_bound v). lra.
Qed.

Lemma logTicks_multiples_of_powers_witness :
  exists l : list R,
    logTicks one_to_hundred 10 100 = Ok l /\
    Forall (fun x => exists d m : Z,
                x = JS.Math_pow 10 (IZR d) * IZR m /\ (1 <= m)%Z /\ IZR m <= 10) l.
Proof.
  destruct one_to_hundred_domain as [Emin Emax].
  assert (Hwf : wf one_to_hundred) by (apply _setDomain_wf, decimal_wf).
  apply (logTicks_multiples_of_powers one_to_hundred 10 100 Hwf);
    try rewrite Emin; try rewrite Emax; simpl; lra.
Defined.

(** ** Symmetry of the ticks *)

(** X17: the budget of a part of the domain and of its mirror image
    about zero are the same, whatever the domain: this is what lets
    [ticks] measure the negative part by its absolute values. *)
Theorem howManyTicks_mirror (s : state) (lower upper : R) :
  wf s -> howManyTicks s (- upper) (- lower) = howManyTicks s lower upper.
Proof.
  intros Hwf. unfold howManyTicks.
  rewrite !adjustedLog_odd by exact Hwf.
  replace (- adjustedLog s lower - - adjustedLog s upper)
    with (adjustedLog s upper - adjustedLog s lower) by ring.
  reflexivity.
Qed.

Lemma howManyTicks_mirror_witness :
  howManyTicks both_sides (- 100) (- 10) = howManyTicks both_sides 10 100.
Proof.
  exact (howManyTicks_mirror both_sides 10 100 (_setDomain_wf decimal (-100, 100) decimal_wf)).
Defined.

(** X18: on a domain symmetric about zero, [[-a, a]] or [[a, -a]] with
    [a] positive, and for a positive count, the negative logarithmic
    ticks are the positive ones negated and reversed, and the linear part
    is symmetric about zero too. *)
Theorem ticks_symmetric (linear_ticks : D3.linear -> JS.number -> list R) (s : state) :
  wf s -> 0 < _lastRequestedTickCount s ->
  0 < D3.max (untransformedDomain s) ->
  D3.min (untransformedDomain s) = - D3.max (untransformedDomain s) ->
  exists (l : list R) (u : R),
    0 <= u /\
    logTicks s u (D3.max (untransformedDomain s)) = Ok l /\
    snd (ticks linear_ticks s None) =
    Ok ((rev (map Ropp l) ++
         linear_ticks (D3.set_domain D3.scale_linear (- u, u))
                      (howManyTicks s (- u) u)) ++ l).
Proof.
  intros Hwf Hc Hmx Hsym. pose proof Hwf as [Hb Hp].
  remember (D3.max (untransformedDomain s)) as mx eqn:Emx.
  remember (D3.min (untransformedDomain s)) as mn eqn:Emn.
  assert (Hd : mn < mx) by lra.
  assert (M2 : middle mn mx (pivot s) = Rmin mx (pivot s)).
  { rewrite middle_clamp by lra. unfold Rmax, Rmin.
    repeat destruct (Rle_dec _ _); lra. }
  assert (M1 : middle mn mx (- pivot s) = - Rmin mx (pivot s)).
  { rewrite middle_clamp by lra. unfold Rmax, Rmin.
    repeat destruct (Rle_dec _ _); lra. }
  assert (Hu : 0 <= Rmin mx (pivot s) <= mx).
  { unfold Rmin. destruct (Rle_dec _ _); lra. }
  destruct (logTicks_returns s (Rmin mx (pivot s)) mx Hwf Hc) as (l & E & _).
  - rewrite <- Emn, <- Emx. exact Hd.
  - lra.
  - unfold Rmin. destruct (Rle_dec _ _); lra.
  - exists l, (Rmin mx (pivot s)). split; [lra|]. split; [exact E|].
    unfold ticks. cbn [snd]. rewrite <- Emn, <- Emx, M1, M2.
    rewrite Hsym, !Ropp_involutive. rewrite E. cbn [bind]. reflexivity.
Qed.

Lemma ticks_symmetric_witness :
  exists (l : list R) (u : R),
    0 <= u /\
    logTicks both_sides u 100 = Ok l /\
    snd (ticks end_ticks both_sides None) =
    Ok ((rev (map Ropp l) ++ end_ticks (D3.set_domain D3.scale_linear (- u, u))
                                       (howManyTicks both_sides (- u) u)) ++ l).
Proof.
  assert (Emin : D3.min (untransformedDomain both_sides) = -100)
    by (unfold D3.min; simpl; rewrite Rmin_left by lra; reflexivity).
  assert (Emax : D3.max (untransformedDomain both_sides) = 100)
    by (unfold D3.max; simpl; rewrite Rmax_right by lra; reflexivity).
  assert (Hwf : wf both_sides) by (apply _setDomain_wf, decimal_wf).
  destruct (ticks_symmetric end_ticks both_sides Hwf) as (l & u & Hu & E & Et);
    try rewrite Emin; try rewrite Emax; try (simpl; lra).
  rewrite Emax in E. exists l, u. split; [exact Hu|]. split; [exact E|exact Et].
Defined.
